(** * Ordinary kriging: local solver and variogram model family

    A shallow embedding of [src/model/distribution.py] and of
    [kriging_ordinary] in [src/kriging/kriging_ordinary.py].

    Numbers.  NumPy's float64 values are modelled by the real numbers [R]
    of the Standard Library: arithmetic is exact, rounding is not
    modelled.  An operation that has no finite real value (division by
    zero, square root of a negative number, a negative power of zero)
    yields [None]; nothing is tracked after that point.  The distance of a
    missing neighbour, and the default search radius, are [+inf]; they are
    kept apart from the finite values in the type [ereal].

    Dtypes.  A distance handed to a variogram model is of an integer or
    of a float dtype.  Arithmetic with a float parameter promotes an
    integer to float; [NP.piecewise] does not: it stores its values in
    an array of the dtype of its argument. *)

From Stdlib Require Import String Reals Lra Lia ZArith Bool Arith List.
Import ListNotations.
Local Open Scope R_scope.

(** ** Partial arithmetic *)

Definition bind {A B : Type} (x : option A) (f : A -> option B) : option B :=
  match x with
  | Some a => f a
  | None => None
  end.

Notation "x <- e ;; k" := (bind e (fun x => k))
  (at level 61, e at next level, right associativity).

(** [x / y]: no value when the divisor is zero. *)
Definition fdiv (x y : R) : option R :=
  if Req_EM_T y 0 then None else Some (x / y).

(** [NP.sqrt x]: no value (nan) on a negative argument. *)
Definition fsqrt (x : R) : option R :=
  if Rlt_dec x 0 then None else Some (sqrt x).

(** [x ** y] on floats.  [0 ** 0 = 1], [0 ** y = 0] for [y > 0], and a
    negative power of zero has no finite value; a negative base is only
    defined for an integer-valued exponent. *)
Definition fpow (x y : R) : option R :=
  if Rlt_dec 0 x then Some (Rpower x y)
  else if Req_EM_T x 0 then
    if Req_EM_T y 0 then Some 1
    else if Rlt_dec 0 y then Some 0 else None
  else if Req_EM_T (frac_part y) 0 then
    Some (if Z.even (Int_part y) then Rpower (- x) y else - Rpower (- x) y)
  else None.

(** ** The variogram model family ([src/model/distribution.py]) *)

Module Distribution.

(** [float(m[i])]: no value when [m] is too short. *)
Definition param (m : list R) (i : nat) : option R := nth_error m i.

(** A distance [d], or an entry of the array [d]: of an integer dtype
    or of a float dtype. *)
Inductive scalar : Type :=
  | Int64 (z : Z)
  | Float64 (r : R).

(** The float that arithmetic with a float operand makes of [d]. *)
Definition to_float (d : scalar) : R :=
  match d with
  | Int64 z => IZR z
  | Float64 r => r
  end.

(** The cast of a float to an integer dtype: truncation toward zero. *)
Definition trunc (r : R) : Z :=
  if Rle_dec 0 r then Int_part r else (- Int_part (- r))%Z.

(** [y[cond] = v] in [NP.piecewise], where [y = zeros_like(d)] has the
    dtype of [d]: a float value stored in an integer array is cast. *)
Definition store_like (d : scalar) (v : R) : scalar :=
  match d with
  | Int64 _ => Int64 (trunc v)
  | Float64 _ => Float64 v
  end.

(** The models written with arithmetic alone are functions of the float
    value of [d]: each of them combines [d] with a float parameter in
    its first operation, and returns a float.  See [on_float]. *)

(** Linear model, m is [slope, nugget]. *)
Definition linear (m : list R) (d : R) : option R :=
  slope <- param m 0 ;;
  nugget <- param m 1 ;;
  Some (slope * d + nugget).

(** Power model, m is [scale, exponent, nugget]. *)
Definition power (m : list R) (d : R) : option R :=
  scale <- param m 0 ;;
  exponent <- param m 1 ;;
  nugget <- param m 2 ;;
  p <- fpow d exponent ;;
  Some (scale * p + nugget).

(** Gaussian model, m is [psill, range, nugget]. *)
Definition gaussian (m : list R) (d : R) : option R :=
  psill <- param m 0 ;;
  range_ <- param m 1 ;;
  nugget <- param m 2 ;;
  q <- fdiv (- d ^ 2) ((range_ * 4 / 7) ^ 2) ;;
  Some (psill * (1 - exp q) + nugget).

(** Exponential model, m is [psill, range, nugget]. *)
Definition exponential (m : list R) (d : R) : option R :=
  psill <- param m 0 ;;
  range_ <- param m 1 ;;
  nugget <- param m 2 ;;
  q <- fdiv (- d) range_ ;;
  Some (psill * (1 - exp q) + nugget).

(** Spherical model, m is [psill, range, nugget].  [NP.piecewise] with the
    conditions [d <= range_] and [d > range_]; the values are stored in
    an array of the dtype of [d]. *)
Definition spherical (m : list R) (d : scalar) : option scalar :=
  psill <- param m 0 ;;
  range_ <- param m 1 ;;
  nugget <- param m 2 ;;
  let x := to_float d in
  if Rle_dec x range_ then
    a <- fdiv (3 * x) (2 * range_) ;;
    b <- fdiv (x ^ 3) (2 * range_ ^ 3) ;;
    Some (store_like d (psill * (a - b) + nugget))
  else Some (store_like d (psill + nugget)).

(** Hole Effect model, m is [psill, range, nugget]. *)
Definition hole_effect (m : list R) (d : R) : option R :=
  psill <- param m 0 ;;
  range_ <- param m 1 ;;
  nugget <- param m 2 ;;
  q <- fdiv d (range_ / 3) ;;
  q' <- fdiv (- d) (range_ / 3) ;;
  Some (psill * (1 - (1 - q) * exp q') + nugget).

(** Circular model, m is [psill, range, nugget].  [NP.piecewise] again. *)
Definition circular (m : list R) (d : scalar) : option scalar :=
  psill <- param m 0 ;;
  range_ <- param m 1 ;;
  nugget <- param m 2 ;;
  let x := to_float d in
  if Rle_dec x range_ then
    q <- fdiv x range_ ;;
    c <- fdiv (2 / PI) (cos q) ;;
    s <- fsqrt (1 - q ^ 2) ;;
    Some (store_like d (psill * (1 - c + s) + nugget))
  else Some (store_like d (psill + nugget)).

(** A model called on a distance of either dtype. *)
Definition model : Type := list R -> scalar -> option scalar.

(** A model written with arithmetic alone, called on a distance of
    either dtype: the result is a float. *)
Definition on_float (f : list R -> R -> option R) : model :=
  fun m d => v <- f m (to_float d) ;; Some (Float64 v).

(** The table [distributions]. *)
Definition distributions : list (string * model) :=
  [ ("linear"%string, on_float linear);
    ("power"%string, on_float power);
    ("gaussian"%string, on_float gaussian);
    ("exponential"%string, on_float exponential);
    ("spherical"%string, spherical);
    ("hole_effect"%string, on_float hole_effect);
    ("circular"%string, circular) ].




(** The number of parameters a model reads: [m[0]] and [m[1]] for the
    linear model, [m[0]], [m[1]] and [m[2]] for the others. *)
Definition arity (name : string) : nat :=
  if String.eqb name "linear" then 2%nat else 3%nat.

(** The float values of a model on the distances of float dtype. *)
Definition at_floats (f : scalar -> option scalar) : R -> option R :=
  fun d => v <- f (Float64 d) ;; Some (to_float v).

(** On the distances from zero on, [f] has a value, does not decrease,
    and stays between [lo] and [hi]. *)
Definition rises_within (f : R -> option R) (lo hi : R) : Prop :=
  forall d1 d2, 0 <= d1 <= d2 ->
    exists v1 v2, f d1 = Some v1 /\ f d2 = Some v2 /\
                  lo <= v1 /\ v1 <= v2 /\ v2 <= hi.

End Distribution.

(** ** Vectors, matrices and the linear solve *)

(** [u.dot(v)] on vectors of equal length. *)
Fixpoint dot (u v : list R) : R :=
  match u, v with
  | a :: u', b :: v' => a * b + dot u' v'
  | _, _ => 0
  end.

Definition mat_vec (a : list (list R)) (w : list R) : list R :=
  map (fun row => dot row w) a.

(** The [j]-th unit vector of length [n]. *)
Definition unit_vec (n j : nat) : list R :=
  map (fun i => if Nat.eqb i j then 1 else 0) (seq 0 n).

(** The rows of the [n] by [n] matrix with entries [f i j]. *)
Definition tabulate2 (n : nat) (f : nat -> nat -> R) : list (list R) :=
  map (fun i => map (f i) (seq 0 n)) (seq 0 n).

Definition tabulate (n : nat) (f : nat -> R) : list R := map f (seq 0 n).

(** [scipy.linalg.solve(a, b)] is LAPACK's [gesv]: an LU factorisation
    with partial pivoting followed by substitution; it raises
    [LinAlgError] when a pivot is exactly zero.  The model eliminates
    one unknown at a time on the list of equations, choosing the first
    equation whose leading coefficient is largest in absolute value. *)
Module Linalg.

Definition equation : Type := (list R * R)%type.

Definition lead (e : equation) : R := hd 0 (fst e).

Fixpoint pick_pivot (e : equation) (es : list equation) : equation * list equation :=
  match es with
  | [] => (e, [])
  | e' :: es' =>
      let (p, rest) := pick_pivot e' es' in
      if Rlt_dec (Rabs (lead e)) (Rabs (lead p)) then (p, e :: rest)
      else (e, p :: rest)
  end.

Fixpoint axpy (f : R) (u v : list R) : list R :=
  match u, v with
  | a :: u', c :: v' => (a - f * c) :: axpy f u' v'
  | _, _ => []
  end.

(** Subtract from [e] the multiple of the pivot equation [p] that cancels
    its leading coefficient, and drop that coefficient. *)
Definition eliminate (p e : equation) : equation :=
  let f := lead e / lead p in
  (axpy f (tl (fst e)) (tl (fst p)), snd e - f * snd p).

Fixpoint gauss (n : nat) (es : list equation) : option (list R) :=
  match n with
  | O => Some []
  | S n' =>
      match es with
      | [] => None
      | e :: es' =>
          let (p, rest) := pick_pivot e es' in
          if Req_EM_T (lead p) 0 then None
          else
            ws <- gauss n' (map (eliminate p) rest) ;;
            Some ((snd p - dot (tl (fst p)) ws) / lead p :: ws)
      end
  end.

(** [None] stands for [LinAlgError] (singular matrix). *)
Definition solve (a : list (list R)) (b : list R) : option (list R) :=
  gauss (length a) (combine a b).

(** The shape of a system of [n] equations in [n] unknowns, and what it
    is to solve it. *)
Definition square (n : nat) (es : list equation) : Prop :=
  length es = n /\ forall e, In e es -> length (fst e) = n.

Definition satisfies (es : list equation) (ws : list R) : Prop :=
  forall e, In e es -> dot (fst e) ws = snd e.

(** A square matrix, and a matrix with a kernel that is not trivial. *)
Definition is_square (a : list (list R)) : Prop :=
  forall row, In row a -> length row = length a.

Definition singular (a : list (list R)) : Prop :=
  exists v, length v = length a /\ v <> repeat 0 (length a) /\
            mat_vec a v = repeat 0 (length a).

End Linalg.

(** ** Arrays and distances *)

(** A float that is finite or [+inf]. *)
Inductive ereal : Type :=
  | Finite (r : R)
  | PosInf.

(** [x < y]; in particular [inf < y] is false for every [y]. *)
Definition ereal_ltb (x y : ereal) : bool :=
  match x, y with
  | Finite a, Finite b => if Rlt_dec a b then true else false
  | Finite _, PosInf => true
  | PosInf, _ => false
  end.

(** [x <= 0]. *)
Definition ereal_nonpos (x : ereal) : bool :=
  match x with
  | Finite a => if Rle_dec a 0 then true else false
  | PosInf => false
  end.

(** The real value of a finite float.  The value at [PosInf] is never
    used: see [SystemFacts.kept_finite]. *)
Definition finite_value (x : ereal) : R :=
  match x with
  | Finite r => r
  | PosInf => 0
  end.

(** A two-dimensional array of shape [(length rows, ncols)]. *)
Record array2 : Type := { ncols : nat; rows : list (list R) }.

(** The arrays [predict] accepts after [NP.atleast_1d]: one-dimensional
    or two-dimensional. *)
Inductive ndarray : Type :=
  | Arr1 (xs : list R)
  | Arr2 (a : array2).

Definition len (x : ndarray) : nat :=
  match x with
  | Arr1 xs => length xs
  | Arr2 a => length (rows a)
  end.

(** [NP.atleast_2d] on a one-dimensional array: a single row. *)
Definition atleast_2d (xs : list R) : ndarray :=
  Arr2 {| ncols := length xs; rows := [xs] |}.

Definition sum (l : list R) : R := fold_right Rplus 0 l.

Definition cityblock (u v : list R) : R :=
  sum (map (fun c => Rabs (fst c - snd c)) (combine u v)).

Definition euclidean (u v : list R) : R :=
  sqrt (sum (map (fun c => (fst c - snd c) ^ 2) (combine u v))).

(** The values of [distance_type] that [predict] tells apart:
    ['cityblock'], and the default ['euclidean']. *)
Inductive metric : Type := Euclidean | Cityblock.

Definition metric_dist (mt : metric) (u v : list R) : R :=
  match mt with
  | Euclidean => euclidean u v
  | Cityblock => cityblock u v
  end.

(** [cdist(XA, XB, metric=mt)]. *)
Definition cdist (XA XB : list (list R)) (mt : metric) : list (list R) :=
  map (fun u => map (metric_dist mt u) XB) XA.

(** Fancy indexing [l[idx]]: [None] is [IndexError]. *)
Fixpoint take {A : Type} (l : list A) (idx : list nat) : option (list A) :=
  match idx with
  | [] => Some []
  | i :: idx' =>
      a <- nth_error l i ;;
      r <- take l idx' ;;
      Some (a :: r)
  end.

(** Boolean-mask indexing [l[keep]]. *)
Definition mask {A : Type} (keep : list bool) (l : list A) : list A :=
  map snd (filter fst (combine keep l)).

(** [l[i] = v]. *)
Fixpoint upd (i : nat) (v : R) (l : list R) : list R :=
  match l, i with
  | [], _ => []
  | _ :: t, O => v :: t
  | h :: t, S i' => h :: upd i' v t
  end.

(** What [predict] and [fit] can raise. *)
Inductive exn : Type :=
  | ShapeMismatch    (* the bare [raise] of [fit] *)
  | NotFitted        (* AttributeError: [self.X], [self.y] or the variogram is unset *)
  | ValueError       (* the tree query rejects the shape of the query *)
  | IndexError       (* an index past the end of the data *)
  | SingularSystem.  (* LinAlgError of [scipy.linalg.solve] *)

(** The messages after which [predict] returns [None]. *)
Inductive rejection : Type :=
  | DimensionMismatch      (* wrong input number of features *)
  | InvalidNeighborCount   (* number of neighbor must be > 0 *)
  | InvalidRadius.         (* radius must be > 0 *)

(** ** Nearest neighbours with [scipy.spatial.cKDTree]

    [query(x, k, p)] returns for each query point the [k] nearest data
    points in increasing order of Minkowski [p]-distance; a missing
    neighbour is reported with distance [inf] and index [n], the number
    of data points.  The tree is represented by the array it indexes.
    The order of two data points at one distance from the query point,
    and with it the choice among them when not all are returned, is a
    matter of the layout of the tree: it is a parameter of the model. *)
Module KDTree.

Inductive pnorm : Type := P1 | P2.

Definition minkowski (p : pnorm) (u v : list R) : R :=
  match p with
  | P1 => cityblock u v
  | P2 => euclidean u v
  end.

(** [tie data q k p i j]: in the answer of the tree of [data] to the
    query [(q, k, p)], the data point of index [i] comes before the data
    point of index [j] when both are as far from [q]. *)
Definition tie_order : Type :=
  list (list R) -> list R -> nat -> pnorm -> nat -> nat -> bool.

Section Ties.

Variable ahead : nat -> nat -> bool.

(** [c] is reported before [c']: it is nearer, or as near and ahead. *)
Definition before (c c' : R * nat) : bool :=
  if Rlt_dec (fst c) (fst c') then true
  else if Req_EM_T (fst c) (fst c') then ahead (snd c) (snd c')
  else false.

Fixpoint insert (c : R * nat) (l : list (R * nat)) : list (R * nat) :=
  match l with
  | [] => [c]
  | c' :: l' => if before c' c then c' :: insert c l' else c :: l
  end.

Definition sort (l : list (R * nat)) : list (R * nat) := fold_right insert [] l.

End Ties.

Section Query.

Variable tie : tie_order.

(** The [k] nearest data points, each with its distance and its index. *)
Definition nearest (data : list (list R)) (q : list R) (k : nat) (p : pnorm)
  : list (R * nat) :=
  let cands := combine (map (minkowski p q) data) (seq 0 (length data)) in
  firstn k (sort (tie data q k p) cands).

Definition query_point (data : list (list R)) (q : list R) (k : nat) (p : pnorm)
  : list ereal * list nat :=
  let top := nearest data q k p in
  let missing := (k - length top)%nat in
  (map (fun c => Finite (fst c)) top ++ repeat PosInf missing,
   map snd top ++ repeat (length data) missing).

(** The query raises [ValueError] unless the last dimension of [x] is
    the dimension of the tree.  A one-dimensional [x] of that dimension
    is one query point, answered here with one row; [predict] does not
    pass one when [n_features] is the dimension of the tree, as it is
    after [fit], since it has reshaped it to one row itself. *)
Definition query (t : array2) (x : ndarray) (k : nat) (p : pnorm)
  : exn + (list (list ereal) * list (list nat)) :=
  let qs := match x with Arr1 xs => [xs] | Arr2 a => rows a end in
  let m := match x with Arr1 xs => length xs | Arr2 a => ncols a end in
  if Nat.eqb m (ncols t) then
    let rs := map (fun q => query_point (rows t) q k p) qs in
    inr (map fst rs, map snd rs)
  else inl ValueError.

End Query.

End KDTree.

(** ** The predictor ([src/kriging/kriging_ordinary.py]) *)

Module Kriging.

Inductive algorithm : Type := Kdtree | Brutal.

(** The attributes of a [kriging_ordinary] object that [fit] and
    [predict] use.  [self_X] and [self_y] are unset until [fit] has run.
    [_variogram] holds the [predict] method of the variogram object.
    With the kdtree algorithm [self_X] is the data of the tree. *)
Record kriging_ordinary : Type := {
  n_features : nat;
  _variogram : option (R -> R);
  _useNugget : bool;
  _algorithm : algorithm;
  distance_type : metric;
  self_X : option array2;
  self_y : option (list R)
}.

(** [__init__]. *)
Definition __init__ (variogram : option (R -> R)) (useNugget : bool)
    (distance_type : metric) (algorithm : algorithm) : kriging_ordinary :=
  {| n_features := 0;
     _variogram := variogram;
     _useNugget := useNugget;
     _algorithm := algorithm;
     distance_type := distance_type;
     self_X := None;
     self_y := None |}.

(** What [predict] returns: the result array and, with [get_error], the
    error array; [None] after a printed message; or an exception. *)
Inductive outcome : Type :=
  | Results (results : list R) (errors : option (list R))
  | Rejected (r : rejection)
  | Raised (e : exn).

(** One iteration of the loop of [predict]: [continue], the two stores
    [results[i]] and [errors[i]], or an exception. *)
Inductive step : Type :=
  | Skip
  | Fill (result error : R)
  | Abort (e : exn).

(** [nd < radius]. *)
Definition within (radius : ereal) (nd : list ereal) : list bool :=
  map (fun d => ereal_ltb d radius) nd.

(** The matrix [a], statement by statement. *)
Definition matrix_a (gamma : R -> R) (useNugget : bool) (n : nat)
    (D : list (list R)) : nat -> nat -> R :=
  let a0 := fun _ _ : nat => 0 in
  let a1 := fun i j =>
    if (i <? n)%nat && (j <? n)%nat then gamma (nth j (nth i D []) 0) else a0 i j in
  let a2 := fun i j => if (j =? n)%nat then 1 else a1 i j in
  let a3 := fun i j => if (i =? n)%nat then 1 else a2 i j in
  let a4 := fun i j => if (i =? n)%nat && (j =? n)%nat then 0 else a3 i j in
  if useNugget then a4
  else fun i j => if (i =? j)%nat then 0 else a4 i j.

(** The vector [b], statement by statement; [zero_index] is the set of
    positions of [nd] that hold a zero distance. *)
Definition vector_b (gamma : R -> R) (useNugget : bool) (n : nat)
    (nd : list R) : nat -> R :=
  let b0 := fun _ : nat => 1 in
  let b1 := fun i => if (i <? n)%nat then gamma (nth i nd 0) else b0 i in
  if useNugget then b1
  else fun i =>
    if (i <? length nd)%nat && (if Req_EM_T (Rabs (nth i nd 0)) 0 then true else false)
    then 0 else b1 i.

(** The system of one query point: [pts] are the locations of the [n]
    neighbours and [nd] their distances to the query point. *)
Definition kriging_system (gamma : R -> R) (useNugget : bool) (mt : metric)
    (n : nat) (pts : list (list R)) (nd : list R) : list (list R) * list R :=
  let D := cdist pts pts mt in
  (tabulate2 (S n) (matrix_a gamma useNugget n D),
   tabulate (S n) (vector_b gamma useNugget n nd)).

(** The indices and the distances that pass the radius filter. *)
Definition kept_idx (radius : ereal) (nd : list ereal) (ni : list nat) : list nat :=
  mask (within radius nd) ni.

Definition kept_dst (radius : ereal) (nd : list ereal) : list ereal :=
  mask (within radius nd) nd.

(** The weights [w] of one query point, together with the right-hand
    side [b]: [ni] are the indices and [nd] the distances of a
    neighbourhood that is not empty. *)
Definition point_weights (self : kriging_ordinary) (ni : list nat) (nd : list R)
  : exn + (list R * list R) :=
  let n := length ni in
  match self_X self with
  | None => inl NotFitted
  | Some data =>
  match take (rows data) ni with
  | None => inl IndexError
  | Some pts =>
  match _variogram self with
  | None => inl NotFitted
  | Some gamma =>
      let ab := kriging_system gamma (_useNugget self) (distance_type self) n pts nd in
      match Linalg.solve (fst ab) (snd ab) with
      | None => inl SingularSystem
      | Some w => inr (w, snd ab)
      end
  end end end.

(** The body of the loop.  A boolean mask indexes an array of its own
    length, or NumPy raises [IndexError]. *)
Definition krige_point (self : kriging_ordinary) (radius : ereal)
    (nd : list ereal) (ni : list nat) : step :=
  if negb (length nd =? length ni)%nat then Abort IndexError
  else
    let ni' := kept_idx radius nd ni in
    let nd' := kept_dst radius nd in
    if (length ni' =? 0)%nat then Skip
    else
      let n := length ni' in
      match point_weights self ni' (map finite_value nd') with
      | inl e => Abort e
      | inr (w, b) =>
          match self_y self with
          | None => Abort NotFitted
          | Some y =>
              match take y ni' with
              | None => Abort IndexError
              | Some ys => Fill (dot (firstn n w) ys) (dot w b)
              end
          end
      end.

(** The loop over [zip(neighbor_dst, neighbor_idx, batches)]. *)
Fixpoint loop (self : kriging_ordinary) (radius : ereal)
    (items : list (list ereal * list nat * nat)) (results errors : list R)
  : exn + (list R * list R) :=
  match items with
  | [] => inr (results, errors)
  | (nd, ni, i) :: items' =>
      match krige_point self radius nd ni with
      | Skip => loop self radius items' results errors
      | Fill r e => loop self radius items' (upd i r results) (upd i e errors)
      | Abort x => inl x
      end
  end.

(** What one row of the neighbour matrices leaves at its position of the
    two arrays. *)
Definition row_outcome (self : kriging_ordinary) (radius : ereal)
    (nd : list ereal) (ni : list nat) (old_r old_e new_r new_e : R) : Prop :=
  match krige_point self radius nd ni with
  | Skip => new_r = old_r /\ new_e = old_e
  | Fill r e => new_r = r /\ new_e = e
  | Abort _ => False
  end.

(** The checks at the head of [predict]; the result is the query array
    after the optional [NP.atleast_2d]. *)
Definition check_features (F : nat) (x : ndarray) : rejection + ndarray :=
  match x with
  | Arr1 xs =>
      if (F =? length xs)%nat then inr (atleast_2d xs)
      else if negb (F =? 1)%nat then inl DimensionMismatch
      else inr x
  | Arr2 a =>
      if negb (ncols a =? F)%nat then inl DimensionMismatch else inr x
  end.

Definition validate (F : nat) (x : ndarray) (n_neighbor : Z) (radius : ereal)
  : rejection + ndarray :=
  match check_features F x with
  | inl r => inl r
  | inr x' =>
      if (n_neighbor <=? 0)%Z then inl InvalidNeighborCount
      else if ereal_nonpos radius then inl InvalidRadius
      else inr x'
  end.

(** The query points of a batch: the rows of a two-dimensional array,
    the entries of a one-dimensional one. *)
Definition points (x : ndarray) : list (list R) :=
  match x with
  | Arr1 xs => map (fun v => [v]) xs
  | Arr2 a => rows a
  end.





Section Collaborators.

(** The order of equidistant data points in the answers of the tree. *)
Variable tie : KDTree.tie_order.

(** [get_neighors_brutal] of the module [utility], which is not part of
    the sources at hand: any function of the metric, the query, the data
    and [k] to a pair of matrices, or an exception. *)
Variable get_neighors_brutal :
  metric -> ndarray -> array2 -> Z -> exn + (list (list ereal) * list (list nat)).

(** The variogram that [fit] creates with [VAR(...).fit(X, y)] when none
    was given; the module [variogram] is not part of the sources. *)
Variable VAR_fit : array2 -> list R -> (R -> R).

(** [fit] on a two-dimensional array of locations. *)
Definition fit (self : kriging_ordinary) (X : array2) (y : list R)
  : exn + kriging_ordinary :=
  if negb (length (rows X) =? length y)%nat then inl ShapeMismatch
  else
    let v := match _variogram self with
             | None => VAR_fit X y
             | Some v => v
             end in
    inr {| n_features := ncols X;
           _variogram := Some v;
           _useNugget := _useNugget self;
           _algorithm := _algorithm self;
           distance_type := distance_type self;
           self_X := Some X;
           self_y := Some y |}.

(** "Find the neighbors". *)
Definition find_neighbors (self : kriging_ordinary) (x : ndarray) (n_neighbor : Z)
  : exn + (list (list ereal) * list (list nat)) :=
  match self_X self with
  | None => inl NotFitted
  | Some data =>
      match _algorithm self with
      | Kdtree =>
          match distance_type self with
          | Cityblock => KDTree.query tie data x (Z.to_nat n_neighbor) KDTree.P1
          | Euclidean => KDTree.query tie data x (Z.to_nat n_neighbor) KDTree.P2
          end
      | Brutal => get_neighors_brutal (distance_type self) x data n_neighbor
      end
  end.

(** [predict], up to the choice of what is returned. *)
Definition predict_arrays (self : kriging_ordinary) (x : ndarray)
    (n_neighbor : Z) (radius : ereal) : rejection + (exn + (list R * list R)) :=
  match validate (n_features self) x n_neighbor radius with
  | inl r => inl r
  | inr x' =>
      inr match find_neighbors self x' n_neighbor with
          | inl e => inl e
          | inr (neighbor_dst, neighbor_idx) =>
              let batches := seq 0 (len x') in
              let zeros := repeat 0 (len x') in
              loop self radius
                   (combine (combine neighbor_dst neighbor_idx) batches)
                   zeros zeros
          end
  end.

Definition predict (self : kriging_ordinary) (x : ndarray)
    (n_neighbor : Z) (radius : ereal) (get_error : bool) : outcome :=
  match predict_arrays self x n_neighbor radius with
  | inl r => Rejected r
  | inr (inl e) => Raised e
  | inr (inr (results, errors)) =>
      Results results (if get_error then Some errors else None)
  end.

(** [update_fit].  The two assignments come first, so an exception of
    the call to [fit], or of the reads of [self.X] and [self.y] in its
    arguments, leaves them done: the result is the object as it is left,
    and the exception if there is one. *)
Definition update_fit (self : kriging_ordinary) (X : option array2)
    (y : option (list R)) : kriging_ordinary * option exn :=
  let self1 :=
    match X with
    | Some X' =>
        {| n_features := n_features self;
           _variogram := _variogram self;
           _useNugget := _useNugget self;
           _algorithm := _algorithm self;
           distance_type := distance_type self;
           self_X := Some X';
           self_y := self_y self |}
    | None => self
    end in
  let self2 :=
    match y with
    | Some y' =>
        {| n_features := n_features self1;
           _variogram := _variogram self1;
           _useNugget := _useNugget self1;
           _algorithm := _algorithm self1;
           distance_type := distance_type self1;
           self_X := self_X self1;
           self_y := Some y' |}
    | None => self1
    end in
  match self_X self2 with
  | None => (self2, Some NotFitted)
  | Some X2 =>
      match self_y self2 with
      | None => (self2, Some NotFitted)
      | Some y2 =>
          match fit self2 X2 y2 with
          | inl e => (self2, Some e)
          | inr self3 => (self3, None)
          end
      end
  end.

End Collaborators.

(** [update_useNugget]. *)
Definition update_useNugget (self : kriging_ordinary) (useNugget : bool)
  : kriging_ordinary :=
  {| n_features := n_features self;
     _variogram := _variogram self;
     _useNugget := useNugget;
     _algorithm := _algorithm self;
     distance_type := distance_type self;
     self_X := self_X self;
     self_y := self_y self |}.


(** What [fit] leaves: locations and values of one length, and
    [n_features] the width of the locations. *)
Definition consistent (self : kriging_ordinary) : Prop :=
  exists X y, self_X self = Some X /\ self_y self = Some y /\
              length (rows X) = length y /\ n_features self = ncols X /\
              exists v, _variogram self = Some v.

(** The module constant [algorithms]. *)
Definition algorithms : list string := ["kdtree"%string; "brutal"%string].

Section Lower.

(** [str.lower] of Python. *)
Variable lower : string -> string.

(** [update_algorithm].  The attribute [_algorithm] is only ever compared
    with ['kdtree']: [Kdtree] stands for that name and [Brutal] for every
    other name that is stored.  On a name that is not in [algorithms] the
    warning is formatted with [%d] from a string, which raises
    [TypeError]: this is [None], and the assignment that follows the two
    prints is not reached. *)
Definition update_algorithm (self : kriging_ordinary) (algorithm : string)
  : option kriging_ordinary :=
  if existsb (String.eqb (lower algorithm)) algorithms then
    Some {| n_features := n_features self;
            _variogram := _variogram self;
            _useNugget := _useNugget self;
            _algorithm := if String.eqb algorithm "kdtree" then Kdtree else Brutal;
            distance_type := distance_type self;
            self_X := self_X self;
            self_y := self_y self |}
  else None.

End Lower.

Section States.

Variable VAR_fit : array2 -> list R -> (R -> R).
Variable lower : string -> string.


End States.

End Kriging.

(** ** Scenarios *)

Module Scenario.
Import Kriging.

(** The predict method of a variogram bound to the linear model with
    parameters [slope, nugget]. *)
Definition linear_variogram (slope nugget : R) : R -> R :=
  fun d => slope * d + nugget.

(** In the scenarios the tree reports equidistant data points in the
    order of the data. *)
Definition data_order : KDTree.tie_order :=
  fun _ _ _ _ i j => (i <? j)%nat.

(** Neither collaborator is called in the scenarios: the algorithm is
    kdtree and the variogram is given. *)
Definition no_brutal (_ : metric) (_ : ndarray) (_ : array2) (_ : Z)
  : exn + (list (list ereal) * list (list nat)) := inl ValueError.

Definition no_VAR_fit (_ : array2) (_ : list R) : R -> R := fun _ => 0.

(** Locations [[0],[1],[2],[3]] with values [1,2,3,4], linear variogram
    with slope 1 and nugget 0, nugget effect disabled. *)
Definition line_X : array2 := {| ncols := 1; rows := [[0]; [1]; [2]; [3]] |}.
Definition line_y : list R := [1; 2; 3; 4].

Definition unfitted : kriging_ordinary :=
  __init__ (Some (linear_variogram 1 0)) false Euclidean Kdtree.

Definition fitted : kriging_ordinary :=
  {| n_features := 1;
     _variogram := Some (linear_variogram 1 0);
     _useNugget := false;
     _algorithm := Kdtree;
     distance_type := Euclidean;
     self_X := Some line_X;
     self_y := Some line_y |}.

(** Two observations at one location, with values 1 and 3. *)
Definition twin_X : array2 := {| ncols := 1; rows := [[0]; [0]] |}.
Definition twin_y : list R := [1; 3].

(** The twins under a variogram with nugget [c], nugget effect disabled. *)
Definition twins (c : R) : kriging_ordinary :=
  {| n_features := 1;
     _variogram := Some (linear_variogram 1 c);
     _useNugget := false;
     _algorithm := Kdtree;
     distance_type := Euclidean;
     self_X := Some twin_X;
     self_y := Some twin_y |}.

(** A single observation, fitted from the initial state. *)
Definition lone_X : array2 := {| ncols := 1; rows := [[0]] |}.
Definition lone_y : list R := [1].

Definition lone : kriging_ordinary :=
  {| n_features := 1;
     _variogram := Some (linear_variogram 1 0);
     _useNugget := false;
     _algorithm := Kdtree;
     distance_type := Euclidean;
     self_X := Some lone_X;
     self_y := Some lone_y |}.

(** A query batch of one point in one dimension. *)
Definition query1 (x : R) : ndarray := Arr1 [x].

(** [str.lower] on the letters A to Z, for names written in ASCII. *)
Fixpoint ascii_lower (s : string) : string :=
  match s with
  | EmptyString => EmptyString
  | String c s' =>
      let n := Ascii.nat_of_ascii c in
      String (if ((65 <=? n) && (n <=? 90))%nat then Ascii.ascii_of_nat (n + 32) else c)
             (ascii_lower s')
  end.

End Scenario.

(** * Properties *)

(** ** The linear solve *)

Module LinalgFacts.
Import Linalg.

Lemma pick_pivot_In (e : equation) (es : list equation) (p : equation)
    (rest : list equation) :
  pick_pivot e es = (p, rest) ->
  forall x, In x (e :: es) <-> x = p \/ In x rest.
Proof.
  revert e p rest.
  induction es as [|e' es IH]; intros e p rest H x; simpl in H.
  - inversion H; subst. simpl. intuition.
  - destruct (pick_pivot e' es) as [p' rest'] eqn:E.
    specialize (IH e' p' rest' E).
    destruct (Rlt_dec (Rabs (lead e)) (Rabs (lead p'))); inversion H; subst.
    + split.
      * intros [Hx|Hx]; [right; left; auto|].
        apply IH in Hx. destruct Hx; [left|right; right]; auto.
      * intros [Hx|[Hx|Hx]]; [right; apply IH; left|left|right; apply IH; right]; auto.
    + split.
      * intros [Hx|Hx]; [left; auto|].
        apply IH in Hx. destruct Hx; [right; left|right; right]; auto.
      * intros [Hx|[Hx|Hx]]; [left|right; apply IH; left|right; apply IH; right]; auto.
Qed.

Lemma pick_pivot_length (e : equation) (es : list equation) (p : equation)
    (rest : list equation) :
  pick_pivot e es = (p, rest) -> length rest = length es.
Proof.
  revert e p rest.
  induction es as [|e' es IH]; intros e p rest H; simpl in H.
  - inversion H; reflexivity.
  - destruct (pick_pivot e' es) as [p' rest'] eqn:E.
    specialize (IH e' p' rest' E).
    destruct (Rlt_dec (Rabs (lead e)) (Rabs (lead p'))); inversion H; subst;
      simpl; congruence.
Qed.

(** The pivot has the largest leading coefficient in absolute value. *)
Lemma pick_pivot_max (e : equation) (es : list equation) (p : equation)
    (rest : list equation) :
  pick_pivot e es = (p, rest) ->
  forall x, In x (e :: es) -> Rabs (lead x) <= Rabs (lead p).
Proof.
  revert e p rest.
  induction es as [|e' es IH]; intros e p rest H x Hx; simpl in H.
  - inversion H; subst. destruct Hx as [->|[]]. lra.
  - destruct (pick_pivot e' es) as [p' rest'] eqn:E.
    specialize (IH e' p' rest' E).
    destruct (Rlt_dec (Rabs (lead e)) (Rabs (lead p'))); inversion H; subst.
    + destruct Hx as [->|Hx]; [lra|auto].
    + destruct Hx as [->|Hx]; [lra|].
      specialize (IH x Hx). lra.
Qed.

Lemma axpy_length (f : R) (u v : list R) :
  length u = length v -> length (axpy f u v) = length u.
Proof.
  revert v. induction u as [|a u IH]; intros [|c v] H; simpl in *; try lia.
  rewrite IH; lia.
Qed.

Lemma dot_axpy (f : R) (u v w : list R) :
  length u = length v ->
  dot (axpy f u v) w = dot u w - f * dot v w.
Proof.
  revert v w. induction u as [|a u IH]; intros [|c v] w H; simpl in *; try lia.
  - lra.
  - destruct w as [|b w]; [lra|].
    rewrite IH by lia. lra.
Qed.

Lemma dot_cons_hd_tl (l : list R) (n : nat) (v0 : R) (vs : list R) :
  length l = S n -> dot l (v0 :: vs) = hd 0 l * v0 + dot (tl l) vs.
Proof. destruct l; simpl; [lia|reflexivity]. Qed.

Lemma tl_length (l : list R) (n : nat) : length l = S n -> length (tl l) = n.
Proof. destruct l; simpl; lia. Qed.

Lemma eliminate_square (n : nat) (e : equation) (es : list equation)
    (p : equation) (rest : list equation) :
  square (S n) (e :: es) -> pick_pivot e es = (p, rest) ->
  length (fst p) = S n /\ square n (map (eliminate p) rest) /\
  (forall x, In x rest -> length (fst x) = S n).
Proof.
  intros [Hlen Hrow] Hp.
  pose proof (pick_pivot_In _ _ _ _ Hp) as HIn.
  pose proof (pick_pivot_length _ _ _ _ Hp) as HL.
  assert (Hpl : length (fst p) = S n) by (apply Hrow, HIn; auto).
  assert (Hr : forall x, In x rest -> length (fst x) = S n)
    by (intros x Hx; apply Hrow, HIn; auto).
  split; [exact Hpl|]. split; [|exact Hr].
  split.
  - rewrite length_map. simpl in Hlen. lia.
  - intros x Hx. apply in_map_iff in Hx. destruct Hx as [x0 [<- Hx0]].
    unfold eliminate; simpl.
    rewrite axpy_length; rewrite !(tl_length _ n); auto.
Qed.

Lemma eliminate_satisfied (n : nat) (p x : equation) (v0 : R) (vs : list R) :
  length (fst p) = S n -> length (fst x) = S n -> lead p <> 0 ->
  dot (fst p) (v0 :: vs) = snd p ->
  (dot (fst x) (v0 :: vs) = snd x <-> dot (fst (eliminate p x)) vs = snd (eliminate p x)).
Proof.
  intros Hp Hx Hnz Hpe.
  unfold eliminate; simpl.
  rewrite dot_axpy by (rewrite !(tl_length _ n); auto).
  rewrite (dot_cons_hd_tl _ n) in Hpe by auto.
  rewrite (dot_cons_hd_tl _ n) by auto.
  fold (lead p) in Hpe. fold (lead x).
  assert (E : lead x / lead p * lead p = lead x) by (field; auto).
  split; intros H.
  - rewrite <- Hpe.
    replace (lead x / lead p * (lead p * v0 + dot (tl (fst p)) vs))
      with (lead x * v0 + lead x / lead p * dot (tl (fst p)) vs)
      by (rewrite <- E at 1; ring).
    lra.
  - rewrite <- Hpe in H.
    replace (lead x / lead p * (lead p * v0 + dot (tl (fst p)) vs))
      with (lead x * v0 + lead x / lead p * dot (tl (fst p)) vs) in H
      by (rewrite <- E at 1; ring).
    lra.
Qed.

Lemma gauss_sound (n : nat) : forall es ws,
  gauss n es = Some ws -> square n es ->
  length ws = n /\ satisfies es ws.
Proof.
  induction n as [|n IH]; intros es ws H Hsq.
  - simpl in H. inversion H; subst. split; [reflexivity|].
    destruct Hsq as [Hlen _]. destruct es; [|discriminate].
    intros e [].
  - simpl in H. destruct es as [|e es]; [discriminate|].
    destruct (pick_pivot e es) as [p rest] eqn:Hp.
    destruct (Req_EM_T (lead p) 0) as [|Hnz]; [discriminate|].
    destruct (gauss n (map (eliminate p) rest)) as [vs|] eqn:Hg; [|discriminate].
    simpl in H. inversion H; subst ws; clear H.
    destruct (eliminate_square _ _ _ _ _ Hsq Hp) as [Hpl [Hsq' Hr]].
    destruct (IH _ _ Hg Hsq') as [Hlen Hsat].
    split; [simpl; congruence|].
    assert (Hpe : dot (fst p) ((snd p - dot (tl (fst p)) vs) / lead p :: vs) = snd p).
    { rewrite (dot_cons_hd_tl _ n) by auto. fold (lead p). field. auto. }
    intros x Hx. apply (pick_pivot_In _ _ _ _ Hp) in Hx.
    destruct Hx as [->|Hx]; [exact Hpe|].
    apply (eliminate_satisfied n p x); auto.
    apply Hsat. apply in_map. exact Hx.
Qed.

Lemma gauss_unique (n : nat) : forall es ws,
  gauss n es = Some ws -> square n es ->
  forall vs, length vs = n -> satisfies es vs -> vs = ws.
Proof.
  induction n as [|n IH]; intros es ws H Hsq vs Hlen Hsat.
  - simpl in H. inversion H; subst. destruct vs; [reflexivity|discriminate].
  - simpl in H. destruct es as [|e es]; [discriminate|].
    destruct (pick_pivot e es) as [p rest] eqn:Hp.
    destruct (Req_EM_T (lead p) 0) as [|Hnz]; [discriminate|].
    destruct (gauss n (map (eliminate p) rest)) as [us|] eqn:Hg; [|discriminate].
    simpl in H. inversion H; subst ws; clear H.
    destruct (eliminate_square _ _ _ _ _ Hsq Hp) as [Hpl [Hsq' Hr]].
    destruct vs as [|v0 vs]; [discriminate|]. simpl in Hlen.
    assert (Hpe : dot (fst p) (v0 :: vs) = snd p)
      by (apply Hsat, (pick_pivot_In _ _ _ _ Hp); auto).
    assert (Hvs : vs = us).
    { apply (IH _ _ Hg Hsq'); [lia|].
      intros x Hx. apply in_map_iff in Hx. destruct Hx as [x0 [<- Hx0]].
      apply (eliminate_satisfied n p x0 v0 vs); auto.
      apply Hsat, (pick_pivot_In _ _ _ _ Hp); auto. }
    subst us. f_equal.
    rewrite (dot_cons_hd_tl _ n) in Hpe by auto. fold (lead p) in Hpe.
    rewrite <- Hpe. field. auto.
Qed.


Lemma dot_zeros (u : list R) (n : nat) : dot u (repeat 0 n) = 0.
Proof.
  revert n. induction u as [|a u IH]; intros [|n]; simpl; try reflexivity.
  rewrite IH. lra.
Qed.

(** What one elimination step does to the coefficients, whatever the
    right-hand sides are. *)
Lemma eliminate_coeffs (n : nat) (p x : equation) (v0 : R) (vs : list R) :
  length (fst p) = S n -> length (fst x) = S n -> lead p <> 0 ->
  dot (fst (eliminate p x)) vs =
  dot (fst x) (v0 :: vs) - lead x / lead p * dot (fst p) (v0 :: vs).
Proof.
  intros Hp Hx Hnz. unfold eliminate; simpl.
  rewrite dot_axpy by (rewrite !(tl_length _ n); auto).
  rewrite !(dot_cons_hd_tl _ n) by auto.
  fold (lead p). fold (lead x). field. auto.
Qed.

(** A solved system has a trivial kernel. *)
Lemma gauss_kernel (n : nat) : forall es ws,
  gauss n es = Some ws -> square n es ->
  forall vs, length vs = n -> (forall e, In e es -> dot (fst e) vs = 0) ->
  vs = repeat 0 n.
Proof.
  induction n as [|n IH]; intros es ws H Hsq vs Hlen Hker.
  - destruct vs; [reflexivity|discriminate].
  - simpl in H. destruct es as [|e es]; [discriminate|].
    destruct (pick_pivot e es) as [p rest] eqn:Hp.
    destruct (Req_EM_T (lead p) 0) as [|Hnz]; [discriminate|].
    destruct (gauss n (map (eliminate p) rest)) as [us|] eqn:Hg; [|discriminate].
    destruct (eliminate_square _ _ _ _ _ Hsq Hp) as [Hpl [Hsq' Hr]].
    destruct vs as [|v0 vs]; [discriminate|]. simpl in Hlen.
    assert (Hpe : dot (fst p) (v0 :: vs) = 0)
      by (apply Hker, (pick_pivot_In _ _ _ _ Hp); auto).
    assert (Hvs : vs = repeat 0 n).
    { apply (IH _ _ Hg Hsq'); [lia|].
      intros x Hx. apply in_map_iff in Hx. destruct Hx as [x0 [<- Hx0]].
      rewrite (eliminate_coeffs n p x0 v0 vs) by auto.
      rewrite Hpe, Hker by (apply (pick_pivot_In _ _ _ _ Hp); auto). lra. }
    subst vs. simpl. f_equal.
    rewrite (dot_cons_hd_tl _ n) in Hpe by auto. fold (lead p) in Hpe.
    rewrite dot_zeros in Hpe.
    assert (lead p * v0 = 0) by lra.
    apply Rmult_integral in H0. destruct H0; [contradiction|assumption].
Qed.

(** The elimination only fails on a system with a kernel that is not
    trivial. *)
Lemma gauss_None (n : nat) : forall es,
  gauss n es = None -> square n es ->
  exists vs, length vs = n /\ vs <> repeat 0 n /\
             forall e, In e es -> dot (fst e) vs = 0.
Proof.
  induction n as [|n IH]; intros es H Hsq.
  - discriminate.
  - simpl in H. destruct es as [|e es]; [destruct Hsq; discriminate|].
    destruct (pick_pivot e es) as [p rest] eqn:Hp.
    destruct (eliminate_square _ _ _ _ _ Hsq Hp) as [Hpl [Hsq' Hr]].
    destruct (Req_EM_T (lead p) 0) as [Hz|Hnz].
    + exists (1 :: repeat 0 n). split; [simpl; rewrite repeat_length; auto|].
      split; [simpl; intros E; inversion E; lra|].
      intros x Hx. destruct Hsq as [_ Hrow].
      rewrite (dot_cons_hd_tl _ n) by auto. rewrite dot_zeros.
      pose proof (pick_pivot_max _ _ _ _ Hp x Hx) as Hm.
      rewrite Hz, Rabs_R0 in Hm. fold (lead x).
      assert (lead x = 0).
      { destruct (Req_dec (lead x) 0) as [|Hne]; [assumption|].
        apply Rabs_pos_lt in Hne. lra. }
      rewrite H0. lra.
    + destruct (gauss n (map (eliminate p) rest)) as [us|] eqn:Hg; [discriminate|].
      destruct (IH _ Hg Hsq') as [vs [Hlen [Hne Hker]]].
      set (v0 := - dot (tl (fst p)) vs / lead p).
      assert (Hpe : dot (fst p) (v0 :: vs) = 0).
      { rewrite (dot_cons_hd_tl _ n) by auto. fold (lead p). unfold v0. field. auto. }
      exists (v0 :: vs). split; [simpl; congruence|].
      split; [simpl; intros E; injection E as _ E2; exact (Hne E2)|].
      intros x Hx. apply (pick_pivot_In _ _ _ _ Hp) in Hx.
      destruct Hx as [->|Hx]; [exact Hpe|].
      specialize (Hker (eliminate p x) (in_map _ _ _ Hx)).
      rewrite (eliminate_coeffs n p x v0 vs) in Hker by auto.
      rewrite Hpe in Hker. lra.
Qed.

Lemma square_combine (a : list (list R)) (b : list R) :
  is_square a -> length b = length a -> square (length a) (combine a b).
Proof.
  intros Hsq Hb. split.
  - pose proof (length_combine a b) as H. unfold equation. lia.
  - intros [row r] Hin. apply in_combine_l in Hin. simpl. auto.
Qed.

Lemma satisfies_combine (a : list (list R)) : forall (b w : list R),
  length b = length a ->
  (satisfies (combine a b) w <-> mat_vec a w = b).
Proof.
  induction a as [|row a IH]; intros [|r b] w Hb; simpl in *; try lia.
  - split; [reflexivity|intros _ e []].
  - split.
    + intros H. f_equal.
      * apply (H (row, r)). left; reflexivity.
      * apply IH; [lia|]. intros e He. apply H. right; exact He.
    + intros H. inversion H; subst. intros e [<-|He]; [reflexivity|].
      revert e He. apply IH; [lia|reflexivity].
Qed.

Lemma kernel_combine (a : list (list R)) : forall (b v : list R),
  length b = length a ->
  ((forall e, In e (combine a b) -> dot (fst e) v = 0) <->
   mat_vec a v = repeat 0 (length a)).
Proof.
  induction a as [|row a IH]; intros [|r b] v Hb; simpl in *; try lia.
  - split; [reflexivity|intros _ e []].
  - split.
    + intros H. f_equal.
      * apply (H (row, r)). left; reflexivity.
      * apply (IH b); [lia|]. intros e He. apply H. right; exact He.
    + intros H. inversion H as [[H1 H2]]. intros e [<-|He]; [simpl; rewrite H1; lra|].
      rewrite H1, H2 in *. revert e He. apply (IH b); [lia|assumption].
Qed.

(** [solve] returns the solution of the system, and it is the only one. *)
Lemma solve_Some (a : list (list R)) (b w : list R) :
  is_square a -> length b = length a -> solve a b = Some w ->
  length w = length a /\ mat_vec a w = b /\
  forall v, length v = length a -> mat_vec a v = b -> v = w.
Proof.
  intros Hsq Hb H. unfold solve in H.
  pose proof (square_combine a b Hsq Hb) as Hs.
  destruct (gauss_sound _ _ _ H Hs) as [Hlen Hsat].
  split; [assumption|]. split; [apply satisfies_combine; assumption|].
  intros v Hv Hav. apply (gauss_unique _ _ _ H Hs); [assumption|].
  apply satisfies_combine; assumption.
Qed.

(** [solve] raises exactly on the singular matrices. *)
Lemma solve_None_iff (a : list (list R)) (b : list R) :
  is_square a -> length b = length a ->
  (solve a b = None <-> singular a).
Proof.
  intros Hsq Hb. unfold solve.
  pose proof (square_combine a b Hsq Hb) as Hs. split.
  - intros H. destruct (gauss_None _ _ H Hs) as [v [Hlen [Hne Hker]]].
    exists v. split; [assumption|]. split; [assumption|].
    apply (kernel_combine a b); assumption.
  - intros [v [Hlen [Hne Hker]]].
    destruct (gauss (length a) (combine a b)) as [w|] eqn:H; [|reflexivity].
    exfalso. apply Hne.
    apply (gauss_kernel _ _ _ H Hs); [assumption|].
    apply (kernel_combine a b); assumption.
Qed.

End LinalgFacts.

(** ** The variogram models at distance zero *)

Module DistributionFacts.
Import Distribution.








(** The circular model as it is written: at distance zero the cosine is
    one and so is the square root, which leaves
    [psill * (2 - 2 / PI) + nugget]. *)
Lemma circular_at_zero (m : list R) (psill range_ nugget : R) (d : scalar) :
  param m 0 = Some psill -> param m 1 = Some range_ -> param m 2 = Some nugget ->
  0 < range_ -> to_float d = 0 ->
  circular m d = Some (store_like d (psill * (2 - 2 / PI) + nugget)).
Proof.
  intros H0 H1 H2 Hr Hd. unfold circular, fdiv, fsqrt. rewrite H0, H1, H2. simpl.
  rewrite Hd.
  destruct (Rle_dec 0 range_); [|lra].
  destruct (Req_EM_T range_ 0); [lra|]. simpl.
  replace (0 / range_) with 0 by (unfold Rdiv; ring).
  rewrite cos_0.
  destruct (Req_EM_T 1 0); [lra|]. simpl.
  replace (1 - 0 * (0 * 1)) with 1 by ring.
  destruct (Rlt_dec 1 0); [lra|]. simpl. rewrite sqrt_1. f_equal. f_equal.
  unfold Rdiv. rewrite Rinv_1. ring.
Qed.

Lemma circular_at_zero_not_nugget (m : list R) (psill range_ nugget : R) :
  param m 0 = Some psill -> param m 1 = Some range_ -> param m 2 = Some nugget ->
  0 < range_ -> psill <> 0 ->
  circular m (Float64 0) <> Some (Float64 nugget).
Proof.
  intros H0 H1 H2 Hr Hp.
  rewrite (circular_at_zero m psill range_ nugget) by (assumption || reflexivity).
  intros E. injection E as E.
  assert (Hpi : 2 < PI) by (pose proof PI2_1; lra).
  assert (H : psill * (2 - 2 / PI) = 0) by lra.
  apply Rmult_integral in H. destruct H as [H|H]; [contradiction|].
  assert (2 / PI < 1); [|lra].
  apply (Rmult_lt_reg_r PI); [lra|].
  unfold Rdiv. rewrite Rmult_assoc, Rinv_l by lra. lra.
Qed.





End DistributionFacts.

(** ** Lists, masks and unit vectors *)

Module ListFacts.

Lemma mask_nil_r {A : Type} (keep : list bool) : mask keep (@nil A) = [].
Proof. unfold mask. destruct keep; reflexivity. Qed.

Lemma mask_cons {A : Type} (k : bool) (keep : list bool) (a : A) (l : list A) :
  mask (k :: keep) (a :: l) = if k then a :: mask keep l else mask keep l.
Proof. unfold mask; simpl. destruct k; reflexivity. Qed.

Lemma mask_map_filter {A : Type} (f : A -> bool) (l : list A) :
  mask (map f l) l = filter f l.
Proof.
  induction l as [|a l IH]; [reflexivity|].
  simpl map. rewrite mask_cons. simpl. rewrite IH. reflexivity.
Qed.

(** Masking two arrays with one mask keeps the pairs in step. *)
Lemma combine_mask {A B : Type} (f : A -> bool) (l : list A) : forall (l' : list B),
  combine (mask (map f l) l) (mask (map f l) l') =
  filter (fun c => f (fst c)) (combine l l').
Proof.
  induction l as [|a l IH]; intros [|b l']; simpl map; simpl combine.
  - reflexivity.
  - reflexivity.
  - rewrite mask_nil_r. apply combine_nil.
  - rewrite !mask_cons. simpl. destruct (f a); simpl; rewrite IH; reflexivity.
Qed.

Lemma mask_length {A B : Type} (f : A -> bool) (l : list A) (l' : list B) :
  length l = length l' ->
  length (mask (map f l) l') = length (mask (map f l) l).
Proof.
  revert l'. induction l as [|a l IH]; intros [|b l'] H; simpl in *; try lia.
  rewrite !mask_cons. destruct (f a); simpl; rewrite IH; auto.
Qed.

Lemma mask_all_true {A : Type} (keep : list bool) (l : list A) :
  Forall (fun k => k = true) keep -> (length l <= length keep)%nat -> mask keep l = l.
Proof.
  revert l. induction keep as [|k keep IH]; intros [|a l] Hall Hlen; simpl in *;
    try reflexivity; try lia.
  rewrite mask_cons. inversion Hall; subst. rewrite IH; auto. lia.
Qed.

Lemma take_length {A : Type} (l : list A) : forall idx r,
  take l idx = Some r -> length r = length idx.
Proof.
  induction idx as [|i idx IH]; intros r H; simpl in H.
  - inversion H; reflexivity.
  - destruct (nth_error l i); [|discriminate]. simpl in H.
    destruct (take l idx) eqn:E; [|discriminate]. simpl in H.
    inversion H; subst. simpl. rewrite (IH l0); reflexivity.
Qed.

Lemma take_nth {A : Type} (l : list A) : forall idx r,
  take l idx = Some r ->
  forall s, (s < length idx)%nat -> nth_error r s = nth_error l (nth s idx 0%nat).
Proof.
  induction idx as [|i idx IH]; intros r H s Hs; simpl in H, Hs; [lia|].
  destruct (nth_error l i) eqn:Ei; [|discriminate]. simpl in H.
  destruct (take l idx) eqn:E; [|discriminate]. simpl in H.
  inversion H; subst. destruct s; simpl; [auto|].
  apply IH; [reflexivity|lia].
Qed.

Lemma take_in_bounds {A : Type} (l : list A) : forall idx,
  Forall (fun i => (i < length l)%nat) idx -> exists r, take l idx = Some r.
Proof.
  induction idx as [|i idx IH]; intros H; [exists []; reflexivity|].
  inversion H; subst. destruct (IH H3) as [r Hr].
  destruct (nth_error l i) eqn:E.
  - exists (a :: r). simpl. rewrite E, Hr. reflexivity.
  - apply nth_error_None in E. lia.
Qed.

Lemma nth_tabulate (n : nat) (f : nat -> R) (i : nat) :
  (i < n)%nat -> nth i (tabulate n f) 0 = f i.
Proof.
  intros H. unfold tabulate.
  rewrite (nth_indep _ 0 (f 0%nat)) by (rewrite length_map, length_seq; exact H).
  rewrite map_nth, seq_nth by exact H. reflexivity.
Qed.

Lemma nth_tabulate2 (n : nat) (f : nat -> nat -> R) (i j : nat) :
  (i < n)%nat -> (j < n)%nat -> nth j (nth i (tabulate2 n f) []) 0 = f i j.
Proof.
  intros Hi Hj. unfold tabulate2.
  rewrite (nth_indep _ [] (map (f 0%nat) (seq 0 n)))
    by (rewrite length_map, length_seq; exact Hi).
  rewrite (map_nth (fun i => map (f i) (seq 0 n))), seq_nth by exact Hi. simpl.
  apply (nth_tabulate n (f i) j Hj).
Qed.

Lemma tabulate_length (n : nat) (f : nat -> R) : length (tabulate n f) = n.
Proof. unfold tabulate. rewrite length_map, length_seq. reflexivity. Qed.

Lemma tabulate2_square (n : nat) (f : nat -> nat -> R) :
  length (tabulate2 n f) = n /\ Linalg.is_square (tabulate2 n f).
Proof.
  assert (H : length (tabulate2 n f) = n)
    by (unfold tabulate2; rewrite length_map, length_seq; reflexivity).
  split; [exact H|]. intros row Hin. rewrite H.
  unfold tabulate2 in Hin. apply in_map_iff in Hin. destruct Hin as [i [<- _]].
  rewrite length_map, length_seq. reflexivity.
Qed.

Lemma dot_indicator (u : list R) (j : nat) : forall s,
  dot u (map (fun i => if Nat.eqb i (s + j)%nat then 1 else 0) (seq s (length u))) =
  nth j u 0.
Proof.
  revert j. induction u as [|a u IH]; intros j s; simpl.
  - destruct j; reflexivity.
  - destruct j as [|j].
    + rewrite Nat.add_0_r, Nat.eqb_refl.
      assert (E : forall l t, (s < t)%nat ->
        dot l (map (fun i => if Nat.eqb i s then 1 else 0) (seq t (length l))) = 0).
      { clear. induction l as [|b l IHl]; intros t Ht; simpl; [reflexivity|].
        destruct (Nat.eqb_spec t s); [lia|]. rewrite IHl by lia. lra. }
      rewrite E by lia. lra.
    + destruct (Nat.eqb_spec s (s + S j)); [lia|].
      replace (s + S j)%nat with (S s + j)%nat by lia.
      rewrite IH. lra.
Qed.

Lemma dot_unit_vec (u : list R) (j : nat) :
  dot u (unit_vec (length u) j) = nth j u 0.
Proof. unfold unit_vec. apply (dot_indicator u j 0%nat). Qed.

Lemma dot_comm (u : list R) : forall v, dot u v = dot v u.
Proof.
  induction u as [|a u IH]; intros [|b v]; simpl; try reflexivity.
  rewrite IH. ring.
Qed.

Lemma unit_vec_length (n j : nat) : length (unit_vec n j) = n.
Proof. unfold unit_vec. rewrite length_map, length_seq. reflexivity. Qed.

Lemma firstn_unit_vec (n j : nat) : firstn n (unit_vec (S n) j) = unit_vec n j.
Proof.
  unfold unit_vec. rewrite firstn_map. f_equal.
  rewrite seq_S, firstn_app, length_seq, Nat.sub_diag. simpl.
  rewrite app_nil_r. apply firstn_all2. rewrite length_seq. lia.
Qed.

Lemma sum_firstn_dot (n : nat) : forall w,
  length w = S n -> sum (firstn n w) = dot (repeat 1 n ++ [0]) w.
Proof.
  induction n as [|n IH]; intros [|a w] H; simpl in *; try lia.
  - destruct w; [simpl; lra|discriminate].
  - rewrite IH by lia. lra.
Qed.

Lemma mask_In {A B : Type} (f : A -> bool) (l : list A) : forall (l' : list B) b,
  In b (mask (map f l) l') -> exists a, In (a, b) (combine l l') /\ f a = true.
Proof.
  induction l as [|a l IH]; intros [|b' l'] b H; simpl map in H.
  - destruct H.
  - destruct H.
  - rewrite mask_nil_r in H. destruct H.
  - rewrite mask_cons in H. destruct (f a) eqn:E.
    + destruct H as [<-|H].
      * exists a. split; [left; reflexivity|exact E].
      * destruct (IH l' b H) as [a' [Hin Hf]]. exists a'. split; [right|]; assumption.
    + destruct (IH l' b H) as [a' [Hin Hf]]. exists a'. split; [right|]; assumption.
Qed.

Lemma In_firstn {A : Type} (x : A) : forall n l, In x (firstn n l) -> In x l.
Proof.
  induction n as [|n IH]; intros [|a l] H; simpl in H; try destruct H.
  - left; assumption.
  - right; auto.
Qed.

Lemma combine_app_eq {A B : Type} (l1 : list A) : forall (l1' : list B) l2 l2',
  length l1 = length l1' ->
  combine (l1 ++ l2) (l1' ++ l2') = combine l1 l1' ++ combine l2 l2'.
Proof.
  induction l1 as [|a l1 IH]; intros [|b l1'] l2 l2' H; simpl in *; try lia.
  - reflexivity.
  - rewrite IH by lia. reflexivity.
Qed.

Lemma In_combine_map {A B C : Type} (f : A -> B) (g : A -> C) (l : list A) b c :
  In (b, c) (combine (map f l) (map g l)) -> exists a, In a l /\ b = f a /\ c = g a.
Proof.
  induction l as [|a l IH]; simpl; intros H; [destruct H|].
  destruct H as [H|H].
  - inversion H. exists a. auto.
  - destruct (IH H) as [a' [Hin [Hb Hc]]]. exists a'. auto.
Qed.

Lemma map_repeat {A : Type} (f : A -> R) (c : R) (l : list A) :
  (forall x, In x l -> f x = c) -> map f l = repeat c (length l).
Proof.
  induction l as [|a l IH]; intros H; simpl; [reflexivity|].
  rewrite H by (left; reflexivity). rewrite IH; [reflexivity|].
  intros x Hx. apply H. right; exact Hx.
Qed.

Lemma nth_mat_vec (a : list (list R)) (w : list R) (i : nat) :
  (i < length a)%nat -> nth i (mat_vec a w) 0 = dot (nth i a []) w.
Proof.
  intros H. unfold mat_vec.
  rewrite (nth_indep _ 0 (dot [] w)) by (rewrite length_map; exact H).
  apply (map_nth (fun row => dot row w)).
Qed.

Lemma nth_row_tabulate2 (n : nat) (f : nat -> nat -> R) (i : nat) :
  (i < n)%nat -> nth i (tabulate2 n f) [] = map (f i) (seq 0 n).
Proof.
  intros Hi. unfold tabulate2.
  rewrite (nth_indep _ [] (map (f 0%nat) (seq 0 n)))
    by (rewrite length_map, length_seq; exact Hi).
  rewrite (map_nth (fun i => map (f i) (seq 0 n))), seq_nth by exact Hi.
  reflexivity.
Qed.

End ListFacts.

(** ** Distances *)

Module MetricFacts.

Lemma combine_swap (f : R -> R -> R) (u : list R) : forall v,
  (forall a b, f a b = f b a) ->
  map (fun c => f (fst c) (snd c)) (combine u v) =
  map (fun c => f (fst c) (snd c)) (combine v u).
Proof.
  induction u as [|a u IH]; intros [|b v] Hf; simpl; try reflexivity.
  rewrite Hf, (IH v Hf). reflexivity.
Qed.

Lemma cityblock_sym (u v : list R) : cityblock u v = cityblock v u.
Proof.
  unfold cityblock. f_equal.
  apply (combine_swap (fun a b => Rabs (a - b))). intros a b. apply Rabs_minus_sym.
Qed.

Lemma euclidean_sym (u v : list R) : euclidean u v = euclidean v u.
Proof.
  unfold euclidean. do 2 f_equal.
  apply (combine_swap (fun a b => (a - b) ^ 2)). intros a b. ring.
Qed.

Lemma metric_dist_sym (mt : metric) (u v : list R) :
  metric_dist mt u v = metric_dist mt v u.
Proof. destruct mt; [apply euclidean_sym|apply cityblock_sym]. Qed.

Lemma sum_self (f : R -> R -> R) (u : list R) :
  (forall a, f a a = 0) ->
  sum (map (fun c => f (fst c) (snd c)) (combine u u)) = 0.
Proof.
  intros Hf. induction u as [|a u IH]; simpl; [reflexivity|].
  rewrite Hf, IH. lra.
Qed.

Lemma metric_dist_self (mt : metric) (u : list R) : metric_dist mt u u = 0.
Proof.
  destruct mt; simpl.
  - unfold euclidean. rewrite (sum_self (fun a b => (a - b) ^ 2)).
    + apply sqrt_0.
    + intros a. ring.
  - unfold cityblock. apply (sum_self (fun a b => Rabs (a - b))).
    intros a. rewrite Rminus_diag. apply Rabs_R0.
Qed.

(** In one dimension both metrics are the absolute difference. *)
Lemma metric_dist_1d (mt : metric) (a b : R) : metric_dist mt [a] [b] = Rabs (a - b).
Proof.
  destruct mt; simpl.
  - unfold euclidean; simpl. rewrite Rplus_0_r.
    replace ((a - b) * ((a - b) * 1)) with (Rsqr (a - b)) by (unfold Rsqr; ring).
    apply sqrt_Rsqr_abs.
  - unfold cityblock; simpl. ring.
Qed.

Lemma cdist_nth (mt : metric) (pts : list (list R)) (i j : nat) :
  (i < length pts)%nat -> (j < length pts)%nat ->
  nth j (nth i (cdist pts pts mt) []) 0 =
  metric_dist mt (nth i pts []) (nth j pts []).
Proof.
  intros Hi Hj. unfold cdist.
  rewrite (nth_indep _ [] (map (metric_dist mt []) pts)) by (rewrite length_map; exact Hi).
  rewrite (map_nth (fun u => map (metric_dist mt u) pts)).
  rewrite (nth_indep _ 0 (metric_dist mt (nth i pts []) [])) by (rewrite length_map; exact Hj).
  rewrite (map_nth (metric_dist mt (nth i pts []))). reflexivity.
Qed.

End MetricFacts.

(** ** The radius filter and the kriging system *)

Module SystemFacts.
Import Linalg Kriging ListFacts LinalgFacts.

Lemma kept_dst_filter (radius : ereal) (nd : list ereal) :
  kept_dst radius nd = filter (fun d => ereal_ltb d radius) nd.
Proof. apply mask_map_filter. Qed.

Lemma kept_dst_lt (radius : ereal) (nd : list ereal) :
  Forall (fun d => ereal_ltb d radius = true) (kept_dst radius nd).
Proof.
  rewrite kept_dst_filter. apply Forall_forall. intros d Hd.
  apply filter_In in Hd. tauto.
Qed.

(** No kept distance is infinite. *)
Lemma kept_finite (radius : ereal) (nd : list ereal) :
  Forall (fun d => d = Finite (finite_value d)) (kept_dst radius nd).
Proof.
  eapply Forall_impl; [|apply kept_dst_lt].
  intros [r|] H; [reflexivity|discriminate].
Qed.

Lemma kept_pairs (radius : ereal) (nd : list ereal) (ni : list nat) :
  combine (kept_dst radius nd) (kept_idx radius nd ni) =
  filter (fun c => ereal_ltb (fst c) radius) (combine nd ni).
Proof. apply (combine_mask (fun d => ereal_ltb d radius)). Qed.

Lemma kept_length (radius : ereal) (nd : list ereal) (ni : list nat) :
  length nd = length ni ->
  length (kept_idx radius nd ni) = length (kept_dst radius nd).
Proof. intros H. apply mask_length. exact H. Qed.

Lemma kept_idx_le (radius : ereal) (nd : list ereal) : forall ni,
  (length (kept_idx radius nd ni) <= length (kept_dst radius nd))%nat.
Proof.
  unfold kept_idx, kept_dst, within.
  induction nd as [|d nd IH]; intros [|i ni]; simpl map.
  - simpl; lia.
  - simpl; lia.
  - rewrite mask_nil_r. simpl; lia.
  - rewrite !mask_cons. destruct (ereal_ltb d radius); simpl; specialize (IH ni); lia.
Qed.

Lemma within_kept (radius : ereal) (nd : list ereal) :
  Forall (fun k => k = true) (within radius (kept_dst radius nd)).
Proof.
  unfold within. apply Forall_forall. intros k Hk.
  apply in_map_iff in Hk. destruct Hk as [d [<- Hd]].
  pose proof (kept_dst_lt radius nd) as H.
  rewrite Forall_forall in H. auto.
Qed.

(** Filtering what was kept keeps all of it. *)
Lemma kept_dst_idem (radius : ereal) (nd : list ereal) :
  kept_dst radius (kept_dst radius nd) = kept_dst radius nd.
Proof.
  unfold kept_dst at 1. apply mask_all_true; [apply within_kept|].
  unfold within. rewrite length_map. lia.
Qed.

Lemma kept_idx_idem (radius : ereal) (nd : list ereal) (ni : list nat) :
  kept_idx radius (kept_dst radius nd) (kept_idx radius nd ni) = kept_idx radius nd ni.
Proof.
  unfold kept_idx at 1. apply mask_all_true; [apply within_kept|].
  unfold within. rewrite length_map. apply kept_idx_le.
Qed.

(** The entries of the matrix and of the vector. *)
Lemma matrix_a_on (gamma : R -> R) (n : nat) (D : list (list R)) (i j : nat) :
  matrix_a gamma true n D i j =
  if (i =? n)%nat && (j =? n)%nat then 0
  else if (i =? n)%nat || (j =? n)%nat then 1
  else if (i <? n)%nat && (j <? n)%nat then gamma (nth j (nth i D []) 0)
  else 0.
Proof.
  unfold matrix_a.
  destruct (i =? n)%nat, (j =? n)%nat; reflexivity.
Qed.

Lemma matrix_a_off (gamma : R -> R) (n : nat) (D : list (list R)) (i j : nat) :
  matrix_a gamma false n D i j =
  if (i =? j)%nat then 0 else matrix_a gamma true n D i j.
Proof. reflexivity. Qed.

Lemma vector_b_on (gamma : R -> R) (n : nat) (nd : list R) (i : nat) :
  vector_b gamma true n nd i = if (i <? n)%nat then gamma (nth i nd 0) else 1.
Proof. reflexivity. Qed.

Lemma vector_b_off (gamma : R -> R) (n : nat) (nd : list R) (i : nat) :
  length nd = n ->
  vector_b gamma false n nd i =
  if (i <? n)%nat then
    if Req_EM_T (nth i nd 0) 0 then 0 else gamma (nth i nd 0)
  else 1.
Proof.
  intros <-. unfold vector_b.
  destruct (i <? length nd)%nat; simpl; [|reflexivity].
  destruct (Req_EM_T (Rabs (nth i nd 0)) 0) as [E|E];
    destruct (Req_EM_T (nth i nd 0) 0) as [E'|E']; try reflexivity.
  - exfalso. apply E'. destruct (Req_dec (nth i nd 0) 0) as [|Hne]; [assumption|].
    apply Rabs_no_R0 in Hne. contradiction.
  - exfalso. apply E. rewrite E'. apply Rabs_R0.
Qed.

(** The last row of [a] is [1, ..., 1, 0] under both nugget policies. *)
Lemma last_row (gamma : R -> R) (useNugget : bool) (n : nat) (D : list (list R)) :
  map (matrix_a gamma useNugget n D n) (seq 0 (S n)) = repeat 1 n ++ [0].
Proof.
  rewrite seq_S, map_app. simpl. f_equal.
  - assert (H : forall j, In j (seq 0 n) -> matrix_a gamma useNugget n D n j = 1).
    { intros j Hj. apply in_seq in Hj.
      destruct useNugget; [|rewrite matrix_a_off]; rewrite ?matrix_a_on;
        rewrite ?Nat.eqb_refl; destruct (Nat.eqb_spec n j); try lia;
        destruct (Nat.eqb_spec j n); try lia; reflexivity. }
    rewrite (map_repeat _ 1 _ H), length_seq. reflexivity.
  - destruct useNugget; [|rewrite matrix_a_off]; rewrite ?matrix_a_on;
      rewrite ?Nat.eqb_refl; reflexivity.
Qed.

(** The weights of a solved system add up to one. *)
Lemma weights_sum (gamma : R -> R) (useNugget : bool) (mt : metric) (n : nat)
    (pts : list (list R)) (nd w : list R) :
  let ab := kriging_system gamma useNugget mt n pts nd in
  length nd = n ->
  Linalg.solve (fst ab) (snd ab) = Some w ->
  sum (firstn n w) = 1.
Proof.
  intros ab Hnd H. unfold ab, kriging_system in H; cbn [fst snd] in H.
  destruct (tabulate2_square (S n) (matrix_a gamma useNugget n (cdist pts pts mt)))
    as [Hlen Hsq].
  apply solve_Some in H; [|exact Hsq|rewrite Hlen; apply tabulate_length].
  destruct H as [Hw [Hav _]]. rewrite Hlen in Hw.
  rewrite sum_firstn_dot by exact Hw.
  rewrite <- (last_row gamma useNugget n (cdist pts pts mt)).
  rewrite <- (nth_row_tabulate2 (S n)) by lia.
  rewrite <- nth_mat_vec by lia.
  rewrite Hav, nth_tabulate by lia.
  destruct useNugget; [rewrite vector_b_on|rewrite vector_b_off by exact Hnd];
    rewrite Nat.ltb_irrefl; reflexivity.
Qed.

Lemma mat_vec_unit (N : nat) (f : nat -> nat -> R) (j : nat) :
  (j < N)%nat ->
  mat_vec (tabulate2 N f) (unit_vec N j) = tabulate N (fun i => f i j).
Proof.
  intros Hj. unfold mat_vec, tabulate2, tabulate. rewrite map_map.
  apply map_ext. intros i.
  assert (E : length (map (f i) (seq 0 N)) = N) by (rewrite length_map, length_seq; reflexivity).
  rewrite <- E at 2. rewrite dot_unit_vec.
  apply (nth_tabulate N (f i) j Hj).
Qed.

(** With the nugget disabled, a neighbour [j] at the query point itself
    makes [b] the [j]-th column of [a]: [nd] holds the distances from
    location [j] to the neighbours, and either the variogram vanishes at
    zero or no other neighbour is at distance zero. *)
Lemma exact_column (gamma : R -> R) (mt : metric) (n : nat)
    (pts : list (list R)) (nd : list R) (j : nat) :
  length pts = n -> length nd = n -> (j < n)%nat ->
  (forall s, (s < n)%nat ->
     nth s nd 0 = metric_dist mt (nth j pts []) (nth s pts [])) ->
  (gamma 0 = 0 \/ forall s, (s < n)%nat -> s <> j -> nth s nd 0 <> 0) ->
  let ab := kriging_system gamma false mt n pts nd in
  mat_vec (fst ab) (unit_vec (S n) j) = snd ab.
Proof.
  intros Hpts Hnd Hj Hdist Hzero ab. unfold ab, kriging_system; cbn [fst snd].
  rewrite mat_vec_unit by lia. unfold tabulate.
  apply map_ext_in. intros i Hi. apply in_seq in Hi.
  rewrite matrix_a_off, matrix_a_on, (vector_b_off _ _ _ _ Hnd).
  assert (Hjj : nth j nd 0 = 0).
  { rewrite Hdist by exact Hj. apply MetricFacts.metric_dist_self. }
  destruct (Nat.eqb_spec i j) as [->|Hij].
  - apply Nat.ltb_lt in Hj. rewrite Hj.
    destruct (Req_EM_T (nth j nd 0) 0); [reflexivity|contradiction].
  - destruct (Nat.eqb_spec j n); [lia|].
    destruct (Nat.eqb_spec i n) as [->|Hin]; simpl.
    + rewrite Nat.ltb_irrefl. reflexivity.
    + assert (Hi' : (i < n)%nat) by lia.
      apply Nat.ltb_lt in Hi' as Hb. rewrite Hb.
      apply Nat.ltb_lt in Hj as Hb'. rewrite Hb'. simpl.
      rewrite MetricFacts.cdist_nth by lia.
      rewrite MetricFacts.metric_dist_sym, <- Hdist by exact Hi'.
      destruct (Req_EM_T (nth i nd 0) 0) as [E|E]; [|reflexivity].
      destruct Hzero as [Hg|Hnz].
      * rewrite E, Hg. reflexivity.
      * exfalso. exact (Hnz i Hi' Hij E).
Qed.

(** The solve then puts the whole weight on neighbour [j]. *)
Lemma exact_weights (gamma : R -> R) (mt : metric) (n : nat)
    (pts : list (list R)) (nd w : list R) (j : nat) :
  length pts = n -> length nd = n -> (j < n)%nat ->
  (forall s, (s < n)%nat ->
     nth s nd 0 = metric_dist mt (nth j pts []) (nth s pts [])) ->
  (gamma 0 = 0 \/ forall s, (s < n)%nat -> s <> j -> nth s nd 0 <> 0) ->
  let ab := kriging_system gamma false mt n pts nd in
  Linalg.solve (fst ab) (snd ab) = Some w ->
  w = unit_vec (S n) j.
Proof.
  intros Hpts Hnd Hj Hdist Hzero ab H.
  pose proof (exact_column gamma mt n pts nd j Hpts Hnd Hj Hdist Hzero) as Hcol.
  fold ab in Hcol. unfold ab, kriging_system in *; cbn [fst snd] in *.
  destruct (tabulate2_square (S n) (matrix_a gamma false n (cdist pts pts mt)))
    as [Hlen Hsq].
  apply solve_Some in H; [|exact Hsq|rewrite Hlen; apply tabulate_length].
  destruct H as [_ [_ Huniq]]. symmetry. apply Huniq.
  - rewrite Hlen. apply unit_vec_length.
  - exact Hcol.
Qed.

Lemma dot_sub_map (g h : nat -> R) (u : list R) : forall l,
  dot u (map (fun k => g k - h k) l) = dot u (map g l) - dot u (map h l).
Proof.
  induction u as [|a u IH]; intros [|k l]; simpl; try lra.
  rewrite IH. lra.
Qed.

(** With the nugget disabled and a variogram that vanishes at zero, two
    neighbours at one location give [a] two equal columns. *)
Lemma duplicate_singular (gamma : R -> R) (mt : metric) (n : nat)
    (pts : list (list R)) (nd : list R) (i j : nat) :
  length pts = n -> (i < n)%nat -> (j < n)%nat -> i <> j ->
  nth i pts [] = nth j pts [] -> gamma 0 = 0 ->
  let ab := kriging_system gamma false mt n pts nd in
  Linalg.solve (fst ab) (snd ab) = None.
Proof.
  intros Hpts Hi Hj Hij Hsame Hg ab. unfold ab, kriging_system; cbn [fst snd].
  set (D := cdist pts pts mt).
  destruct (tabulate2_square (S n) (matrix_a gamma false n D)) as [Hlen Hsq].
  apply solve_None_iff; [exact Hsq|rewrite Hlen; apply tabulate_length|].
  set (ei := fun k => if Nat.eqb k i then 1 else 0).
  set (ej := fun k => if Nat.eqb k j then 1 else 0).
  exists (map (fun k => ei k - ej k) (seq 0 (S n))).
  rewrite Hlen. split; [rewrite length_map, length_seq; reflexivity|]. split.
  - intros E. apply (f_equal (fun l => nth i l 0)) in E.
    rewrite (nth_tabulate (S n) (fun k => ei k - ej k)) in E by lia.
    rewrite nth_repeat in E. unfold ei, ej in E.
    rewrite Nat.eqb_refl in E. destruct (Nat.eqb_spec i j); [contradiction|lra].
  - replace (repeat 0 (S n)) with (map (fun _ : nat => 0) (seq 0 (S n)))
      by (rewrite (map_repeat _ 0) by reflexivity; rewrite length_seq; reflexivity).
    unfold mat_vec, tabulate2. rewrite map_map.
    apply map_ext_in. intros r Hr. apply in_seq in Hr.
    rewrite dot_sub_map.
    assert (E : length (map (matrix_a gamma false n D r) (seq 0 (S n))) = S n)
      by (rewrite length_map, length_seq; reflexivity).
    pose proof (dot_unit_vec (map (matrix_a gamma false n D r) (seq 0 (S n)))) as Hu.
    rewrite E in Hu. unfold unit_vec in Hu. unfold ei, ej. rewrite !Hu.
    rewrite !(nth_tabulate (S n) (matrix_a gamma false n D r)) by lia.
    rewrite !matrix_a_off, !matrix_a_on.
    assert (Hin : (i =? n)%nat = false) by (apply Nat.eqb_neq; lia).
    assert (Hjn : (j =? n)%nat = false) by (apply Nat.eqb_neq; lia).
    apply Nat.ltb_lt in Hi as Hbi. apply Nat.ltb_lt in Hj as Hbj.
    unfold D.
    destruct (Nat.eqb_spec r i) as [Eri|Hri]; destruct (Nat.eqb_spec r j) as [Erj|Hrj];
      try (exfalso; lia); try subst r; rewrite ?Hin, ?Hjn, ?Hbi, ?Hbj; simpl.
    + rewrite MetricFacts.cdist_nth, Hsame, MetricFacts.metric_dist_self by lia. lra.
    + rewrite MetricFacts.cdist_nth, Hsame, MetricFacts.metric_dist_self by lia. lra.
    + destruct (Nat.eqb_spec r n) as [->|Hrn]; simpl; [lra|].
      assert (Hr' : (r < n)%nat) by lia. apply Nat.ltb_lt in Hr' as Hbr.
      rewrite Hbr; simpl.
      rewrite !MetricFacts.cdist_nth, Hsame by lia. lra.
Qed.

End SystemFacts.

(** ** The loop of [predict] *)

Module LoopFacts.
Import Kriging.

Lemma upd_length (i : nat) (v : R) : forall l, length (upd i v l) = length l.
Proof.
  induction i as [|i IH]; intros [|h t]; simpl; try reflexivity.
  rewrite IH. reflexivity.
Qed.

Lemma nth_upd_same (v : R) : forall i l,
  (i < length l)%nat -> nth i (upd i v l) 0 = v.
Proof.
  induction i as [|i IH]; intros [|h t] H; simpl in *; try lia; try reflexivity.
  apply IH. lia.
Qed.

Lemma nth_upd_other (v : R) : forall i k l,
  k <> i -> nth k (upd i v l) 0 = nth k l 0.
Proof.
  induction i as [|i IH]; intros k [|h t] H; simpl; try reflexivity.
  - destruct k; [contradiction|reflexivity].
  - destruct k; [reflexivity|]. apply IH. lia.
Qed.

Lemma loop_inr (self : kriging_ordinary) (radius : ereal) :
  forall rws s n res err res' err',
  loop self radius (combine rws (seq s n)) res err = inr (res', err') ->
  (s + n <= length res)%nat -> (s + n <= length err)%nat ->
  (length res' = length res /\ length err' = length err) /\
  (forall k, (k < s)%nat -> nth k res' 0 = nth k res 0 /\ nth k err' 0 = nth k err 0) /\
  (forall t nd ni, nth_error rws t = Some (nd, ni) -> (t < n)%nat ->
     row_outcome self radius nd ni (nth (s + t) res 0) (nth (s + t) err 0)
                 (nth (s + t) res' 0) (nth (s + t) err' 0)).
Proof.
  induction rws as [|[nd0 ni0] rws IH]; intros s n res err res' err' H Hres Herr.
  - simpl in H. inversion H; subst. repeat split; auto.
    intros t nd ni Ht. destruct t; discriminate.
  - destruct n as [|n].
    + simpl in H. inversion H; subst. repeat split; auto. intros; lia.
    + simpl in H. unfold row_outcome.
      destruct (krige_point self radius nd0 ni0) as [|r e|x] eqn:Hk; [| |discriminate].
      * destruct (IH _ _ _ _ _ _ H) as [Hl [Hlow Hrow]]; [lia|lia|].
        split; [exact Hl|]. split; [intros k Hk'; apply Hlow; lia|].
        intros [|t] nd ni Ht Htn; simpl in Ht.
        -- inversion Ht; subst. rewrite Hk, Nat.add_0_r. apply Hlow. lia.
        -- replace (s + S t)%nat with (S s + t)%nat by lia.
           apply (Hrow t nd ni Ht). lia.
      * destruct (IH _ _ _ _ _ _ H) as [[Hl1 Hl2] [Hlow Hrow]];
          [rewrite upd_length; lia|rewrite upd_length; lia|].
        rewrite upd_length in Hl1, Hl2.
        split; [split; assumption|]. split.
        -- intros k Hk'. destruct (Hlow k) as [H1 H2]; [lia|].
           rewrite H1, H2, !nth_upd_other by lia. split; reflexivity.
        -- intros [|t] nd ni Ht Htn; simpl in Ht.
           ++ inversion Ht; subst. rewrite Hk, Nat.add_0_r.
              destruct (Hlow s) as [H1 H2]; [lia|].
              rewrite H1, H2, !nth_upd_same by lia. split; reflexivity.
           ++ replace (s + S t)%nat with (S s + t)%nat by lia.
              specialize (Hrow t nd ni Ht). unfold row_outcome in Hrow.
              destruct (krige_point self radius nd ni); try (apply Hrow; lia).
              rewrite !nth_upd_other in Hrow by lia. apply Hrow. lia.
Qed.

Lemma loop_inl (self : kriging_ordinary) (radius : ereal) :
  forall rws s n res err x,
  loop self radius (combine rws (seq s n)) res err = inl x ->
  exists t nd ni, nth_error rws t = Some (nd, ni) /\ (t < n)%nat /\
                  krige_point self radius nd ni = Abort x.
Proof.
  induction rws as [|[nd0 ni0] rws IH]; intros s n res err x H.
  - discriminate.
  - destruct n as [|n]; [discriminate|]. simpl in H.
    destruct (krige_point self radius nd0 ni0) as [|r e|x'] eqn:Hk.
    + destruct (IH _ _ _ _ _ H) as [t [nd [ni [Ht [Htn Ha]]]]].
      exists (S t), nd, ni. repeat split; auto. lia.
    + destruct (IH _ _ _ _ _ H) as [t [nd [ni [Ht [Htn Ha]]]]].
      exists (S t), nd, ni. repeat split; auto. lia.
    + inversion H; subst. exists 0%nat, nd0, ni0. repeat split; auto. lia.
Qed.

Lemma nth_error_combine {A B : Type} (l : list A) : forall (l' : list B) t a b,
  nth_error l t = Some a -> nth_error l' t = Some b ->
  nth_error (combine l l') t = Some (a, b).
Proof.
  induction l as [|h l IH]; intros [|h' l'] [|t] a b Ha Hb; simpl in *;
    try discriminate.
  - congruence.
  - apply IH; assumption.
Qed.

Lemma nth_error_combine_inv {A B : Type} (l : list A) : forall (l' : list B) t a b,
  nth_error (combine l l') t = Some (a, b) ->
  nth_error l t = Some a /\ nth_error l' t = Some b.
Proof.
  induction l as [|h l IH]; intros [|h' l'] [|t] a b H; simpl in *;
    try discriminate.
  - inversion H; subst. split; reflexivity.
  - apply IH; assumption.
Qed.

End LoopFacts.

(** ** The tree query *)

Module KDTreeFacts.
Import Kriging ListFacts SystemFacts.

Section Ties.

Variable ahead : nat -> nat -> bool.

Lemma insert_In (c : R * nat) (l : list (R * nat)) (x : R * nat) :
  In x (KDTree.insert ahead c l) <-> x = c \/ In x l.
Proof.
  induction l as [|c' l IH]; simpl.
  - intuition.
  - destruct (KDTree.before ahead c' c); simpl; rewrite ?IH; intuition.
Qed.

Lemma sort_In (l : list (R * nat)) (x : R * nat) :
  In x (KDTree.sort ahead l) <-> In x l.
Proof.
  induction l as [|c l IH]; simpl; [reflexivity|].
  rewrite insert_In, IH. intuition.
Qed.

Lemma insert_length (c : R * nat) (l : list (R * nat)) :
  length (KDTree.insert ahead c l) = S (length l).
Proof.
  induction l as [|c' l IH]; simpl; [reflexivity|].
  destruct (KDTree.before ahead c' c); simpl; rewrite ?IH; reflexivity.
Qed.

Lemma sort_length (l : list (R * nat)) : length (KDTree.sort ahead l) = length l.
Proof.
  induction l as [|c l IH]; simpl; [reflexivity|].
  rewrite insert_length, IH. reflexivity.
Qed.

End Ties.

Section Query.

Variable tie : KDTree.tie_order.

Lemma top_length (data : list (list R)) (q : list R) (k : nat) (p : KDTree.pnorm) :
  length (KDTree.nearest tie data q k p) = Nat.min k (length data).
Proof.
  unfold KDTree.nearest. rewrite length_firstn, sort_length, length_combine, length_map, length_seq.
  lia.
Qed.

Lemma top_index (data : list (list R)) (q : list R) (k : nat) (p : KDTree.pnorm)
    (c : R * nat) :
  In c (KDTree.nearest tie data q k p) ->
  (snd c < length data)%nat /\
  exists loc, nth_error data (snd c) = Some loc /\ fst c = KDTree.minkowski p q loc.
Proof.
  unfold KDTree.nearest. intros H. apply In_firstn in H. rewrite sort_In in H.
  destruct c as [d i]. simpl.
  assert (G : forall (l : list (list R)) s, In (d, i) (combine (map (KDTree.minkowski p q) l)
                (seq s (length l))) ->
              (s <= i < s + length l)%nat /\
              exists loc, nth_error l (i - s) = Some loc /\ d = KDTree.minkowski p q loc).
  { clear. induction l as [|u l IH]; intros s H; simpl in H; [destruct H|].
    destruct H as [H|H].
    - inversion H; subst. simpl. split; [lia|].
      rewrite Nat.sub_diag. exists u. split; reflexivity.
    - destruct (IH (S s) H) as [Hb [loc [Hl Hd]]]. simpl. split; [lia|].
      exists loc. split; [|exact Hd].
      replace (i - s)%nat with (S (i - S s)) by lia. exact Hl. }
  destruct (G data 0%nat H) as [Hb [loc [Hl Hd]]].
  rewrite Nat.sub_0_r in Hl. split; [lia|]. exists loc. auto.
Qed.

Lemma query_point_eq (data : list (list R)) (q : list R) (k : nat) (p : KDTree.pnorm) :
  KDTree.query_point tie data q k p =
  (map (fun c => Finite (fst c)) (KDTree.nearest tie data q k p) ++
     repeat PosInf (k - length (KDTree.nearest tie data q k p)),
   map snd (KDTree.nearest tie data q k p) ++
     repeat (length data) (k - length (KDTree.nearest tie data q k p))).
Proof. reflexivity. Qed.

(** The pairs of a row of the query: a data point with its distance, or
    the sentinel. *)
Lemma query_point_pairs (data : list (list R)) (q : list R) (k : nat)
    (p : KDTree.pnorm) (d : ereal) (i : nat) :
  In (d, i) (combine (fst (KDTree.query_point tie data q k p))
                     (snd (KDTree.query_point tie data q k p))) ->
  (d = PosInf /\ i = length data) \/
  ((i < length data)%nat /\
   exists loc, nth_error data i = Some loc /\ d = Finite (KDTree.minkowski p q loc)).
Proof.
  rewrite query_point_eq. cbn [fst snd].
  rewrite combine_app_eq by (rewrite !length_map; reflexivity).
  intros H. apply in_app_or in H. destruct H as [H|H].
  - right. apply In_combine_map in H. destruct H as [c [Hc [-> ->]]].
    destruct (top_index _ _ _ _ _ Hc) as [Hb [loc [Hl Hd]]].
    split; [exact Hb|]. exists loc. rewrite Hd. auto.
  - left. apply in_combine_l in H as H1. apply in_combine_r in H as H2.
    apply repeat_spec in H1. apply repeat_spec in H2. auto.
Qed.

Lemma query_point_length (data : list (list R)) (q : list R) (k : nat)
    (p : KDTree.pnorm) :
  length (fst (KDTree.query_point tie data q k p)) = k /\
  length (snd (KDTree.query_point tie data q k p)) = k.
Proof.
  rewrite query_point_eq. cbn [fst snd].
  rewrite !length_app, !length_map, !repeat_length, top_length. lia.
Qed.

(** The slots past the number of data points hold the sentinel. *)
Lemma query_point_sentinel (data : list (list R)) (q : list R) (k : nat)
    (p : KDTree.pnorm) (s : nat) :
  (length data <= s < k)%nat ->
  nth s (fst (KDTree.query_point tie data q k p)) (Finite 0) = PosInf /\
  nth s (snd (KDTree.query_point tie data q k p)) 0%nat = length data.
Proof.
  intros Hs. rewrite query_point_eq. cbn [fst snd].
  rewrite !app_nth2 by (rewrite length_map, top_length; lia).
  rewrite !length_map, top_length.
  split; apply nth_repeat_lt; lia.
Qed.

(** No index that passes the radius filter is the sentinel index. *)
Lemma kept_in_bounds (data : list (list R)) (q : list R) (k : nat)
    (p : KDTree.pnorm) (radius : ereal) :
  Forall (fun i => (i < length data)%nat)
         (kept_idx radius (fst (KDTree.query_point tie data q k p))
                   (snd (KDTree.query_point tie data q k p))).
Proof.
  apply Forall_forall. intros i Hi. unfold kept_idx, within in Hi.
  apply mask_In in Hi. destruct Hi as [d [Hin Hlt]].
  apply query_point_pairs in Hin. destruct Hin as [[-> _]|[Hb _]].
  - discriminate.
  - exact Hb.
Qed.

End Query.

End KDTreeFacts.

(** ** The predictor *)

Module KrigingFacts.
Import Kriging ListFacts LinalgFacts SystemFacts LoopFacts.

Lemma ereal_ltb_spec (d radius : ereal) :
  ereal_ltb d radius = true <->
  exists a, d = Finite a /\
            match radius with
            | Finite r => a < r
            | PosInf => True
            end.
Proof.
  destruct d as [a|], radius as [r|]; simpl.
  - destruct (Rlt_dec a r); split.
    + intros _. exists a. auto.
    + reflexivity.
    + discriminate.
    + intros [a' [E H]]. inversion E; subst. contradiction.
  - split; [intros _; exists a; auto|reflexivity].
  - split; [discriminate|intros [a [E _]]; discriminate].
  - split; [discriminate|intros [a [E _]]; discriminate].
Qed.

(** C2: whenever the system of a query point is solved, under either
    nugget policy, the weights [w[0:n]] of its [n] neighbours add up to
    one. *)
Theorem weights_sum_to_one (self : kriging_ordinary) (radius : ereal)
    (nd : list ereal) (ni : list nat) (w b : list R) :
  length nd = length ni ->
  point_weights self (kept_idx radius nd ni)
                (map finite_value (kept_dst radius nd)) = inr (w, b) ->
  sum (firstn (length (kept_idx radius nd ni)) w) = 1.
Proof.
  intros Hlen H. unfold point_weights in H.
  destruct (self_X self) as [data|]; [|discriminate].
  destruct (take (rows data) (kept_idx radius nd ni)) as [pts|]; [|discriminate].
  destruct (_variogram self) as [gamma|]; [|discriminate].
  destruct (Linalg.solve _ _) as [w'|] eqn:Hs; [|discriminate].
  inversion H; subst w' b; clear H.
  apply weights_sum in Hs; [exact Hs|].
  rewrite length_map. symmetry. apply kept_length. exact Hlen.
Qed.

(** C6: the neighbours that enter the system of a query point are the
    pairs of the row with a distance below the radius, each of them
    finite; the dropped ones have no influence on the outcome. *)
Theorem radius_filter (self : kriging_ordinary) (radius : ereal)
    (nd : list ereal) (ni : list nat) :
  Forall (fun d => exists a, d = Finite a /\
                   match radius with Finite r => a < r | PosInf => True end)
         (kept_dst radius nd) /\
  combine (kept_dst radius nd) (kept_idx radius nd ni) =
    filter (fun c => ereal_ltb (fst c) radius) (combine nd ni) /\
  (length nd = length ni ->
   krige_point self radius (kept_dst radius nd) (kept_idx radius nd ni) =
   krige_point self radius nd ni).
Proof.
  split; [|split].
  - eapply Forall_impl; [|apply kept_dst_lt].
    intros d Hd. apply ereal_ltb_spec. exact Hd.
  - apply kept_pairs.
  - intros Hlen. unfold krige_point.
    rewrite kept_dst_idem, kept_idx_idem.
    rewrite <- (kept_length radius nd ni Hlen), Hlen, !Nat.eqb_refl.
    reflexivity.
Qed.

(** C7: with the nugget effect disabled the diagonal of [a] is zero and
    [b] is zero at every neighbour at distance zero, the other entries
    being those of the system with the nugget effect enabled; with the
    nugget effect enabled the entries are the semivariances of the
    distances, bordered by ones, with a zero corner. *)
Theorem nugget_policy (gamma : R -> R) (mt : metric) (pts : list (list R))
    (nd : list R) :
  let n := length pts in
  let off := kriging_system gamma false mt n pts nd in
  let on := kriging_system gamma true mt n pts nd in
  let entry (ab : list (list R) * list R) i j := nth j (nth i (fst ab) []) 0 in
  length nd = n ->
  (forall i, (i <= n)%nat -> entry off i i = 0) /\
  (forall i, (i < n)%nat -> nth i nd 0 = 0 -> nth i (snd off) 0 = 0) /\
  (forall i j, (i <= n)%nat -> (j <= n)%nat -> i <> j -> entry off i j = entry on i j) /\
  (forall i, (i <= n)%nat -> ~ ((i < n)%nat /\ nth i nd 0 = 0) ->
     nth i (snd off) 0 = nth i (snd on) 0) /\
  (forall i j, (i < n)%nat -> (j < n)%nat ->
     entry on i j = gamma (metric_dist mt (nth i pts []) (nth j pts []))) /\
  (forall i, (i < n)%nat -> entry on i n = 1 /\ entry on n i = 1) /\
  entry on n n = 0 /\
  (forall i, (i < n)%nat -> nth i (snd on) 0 = gamma (nth i nd 0)) /\
  nth n (snd on) 0 = 1.
Proof.
  intros n off on entry Hnd. unfold entry, off, on, kriging_system; cbn [fst snd].
  repeat split.
  - intros i Hi. rewrite nth_tabulate2, matrix_a_off, Nat.eqb_refl by lia. reflexivity.
  - intros i Hi Hz. rewrite nth_tabulate, vector_b_off by (auto; lia).
    apply Nat.ltb_lt in Hi. rewrite Hi.
    destruct (Req_EM_T (nth i nd 0) 0); [reflexivity|contradiction].
  - intros i j Hi Hj Hij. rewrite !nth_tabulate2, matrix_a_off by lia.
    destruct (Nat.eqb_spec i j); [contradiction|reflexivity].
  - intros i Hi Hz. rewrite !nth_tabulate, vector_b_off, vector_b_on by (auto; lia).
    destruct (i <? n)%nat eqn:E; [|reflexivity].
    destruct (Req_EM_T (nth i nd 0) 0) as [Hz'|]; [|reflexivity].
    exfalso. apply Hz. apply Nat.ltb_lt in E. split; assumption.
  - intros i j Hi Hj. rewrite nth_tabulate2, matrix_a_on by lia.
    destruct (Nat.eqb_spec i n); [lia|]. destruct (Nat.eqb_spec j n); [lia|].
    apply Nat.ltb_lt in Hi as Hbi. apply Nat.ltb_lt in Hj as Hbj.
    rewrite Hbi, Hbj. simpl. rewrite MetricFacts.cdist_nth by assumption. reflexivity.
  - rewrite nth_tabulate2, matrix_a_on, Nat.eqb_refl by lia.
    destruct (Nat.eqb_spec i n); [lia|reflexivity].
  - rewrite nth_tabulate2, matrix_a_on, Nat.eqb_refl by lia.
    destruct (Nat.eqb_spec i n); [lia|reflexivity].
  - rewrite nth_tabulate2, matrix_a_on, Nat.eqb_refl by lia. reflexivity.
  - intros i Hi. rewrite nth_tabulate, vector_b_on by lia.
    apply Nat.ltb_lt in Hi. rewrite Hi. reflexivity.
  - rewrite nth_tabulate, vector_b_on, Nat.ltb_irrefl by lia. reflexivity.
Qed.


(** The loop body on an empty neighbourhood. *)
Lemma krige_point_skip (self : kriging_ordinary) (radius : ereal)
    (nd : list ereal) (ni : list nat) :
  length nd = length ni -> kept_idx radius nd ni = [] ->
  krige_point self radius nd ni = Skip.
Proof.
  intros Hlen Hk. unfold krige_point. rewrite Hlen, Nat.eqb_refl, Hk. reflexivity.
Qed.

(** What a completed iteration has computed. *)
Lemma krige_point_fill (self : kriging_ordinary) (radius : ereal)
    (nd : list ereal) (ni : list nat) (r e : R) :
  krige_point self radius nd ni = Fill r e ->
  length nd = length ni /\ kept_idx radius nd ni <> [] /\
  exists w b y ys,
    point_weights self (kept_idx radius nd ni)
                  (map finite_value (kept_dst radius nd)) = inr (w, b) /\
    self_y self = Some y /\ take y (kept_idx radius nd ni) = Some ys /\
    r = dot (firstn (length (kept_idx radius nd ni)) w) ys /\ e = dot w b.
Proof.
  unfold krige_point. intros H.
  destruct (Nat.eqb_spec (length nd) (length ni)) as [Hlen|]; [|discriminate].
  simpl in H. split; [exact Hlen|].
  destruct (kept_idx radius nd ni) as [|i0 ni'] eqn:Hk; [discriminate|].
  split; [discriminate|]. simpl length in H. simpl Nat.eqb in H. cbv iota in H.
  destruct (point_weights self (i0 :: ni') _) as [x|[w b]] eqn:Hw; [discriminate|].
  destruct (self_y self) as [y|]; [|discriminate].
  destruct (take y (i0 :: ni')) as [ys|] eqn:Hys; [|discriminate].
  inversion H; subst. exists w, b, y, ys. repeat split; auto.
Qed.

Lemma nth_error_nth_default {A : Type} (l : list A) (i : nat) (a d : A) :
  nth_error l i = Some a -> nth i l d = a.
Proof. intros H. apply nth_error_nth. exact H. Qed.

Lemma dot_unit_vec_l (n j : nat) (ys : list R) :
  length ys = n -> dot (unit_vec n j) ys = nth j ys 0.
Proof. intros <-. rewrite dot_comm. apply dot_unit_vec. Qed.

(** The loop body at a query point that is the location of neighbour
    [j], with the nugget effect disabled. *)
Lemma krige_point_exact (self : kriging_ordinary) (radius : ereal)
    (nd : list ereal) (ni : list nat) (r e : R)
    (data : array2) (gamma : R -> R) (y : list R)
    (q : list R) (j : nat) (value : R) :
  _useNugget self = false -> self_X self = Some data ->
  self_y self = Some y -> _variogram self = Some gamma ->
  let ni' := kept_idx radius nd ni in
  let nd' := kept_dst radius nd in
  (forall s, (s < length ni')%nat ->
     exists loc, nth_error (rows data) (nth s ni' 0%nat) = Some loc /\
                 nth s nd' PosInf = Finite (metric_dist (distance_type self) q loc)) ->
  (j < length ni')%nat ->
  nth_error (rows data) (nth j ni' 0%nat) = Some q ->
  nth_error y (nth j ni' 0%nat) = Some value ->
  (gamma 0 = 0 \/
   forall s, (s < length ni')%nat -> s <> j -> nth s nd' PosInf <> Finite 0) ->
  krige_point self radius nd ni = Fill r e ->
  r = value /\ e = 0.
Proof.
  intros Hnug HX Hy Hv ni' nd' Hdist Hj Hq Hval Hzero H.
  apply krige_point_fill in H.
  destruct H as [Hlen [_ [w [b [y' [ys [Hw [Hy' [Hys [-> ->]]]]]]]]]].
  fold ni' in Hw, Hys |- *. fold nd' in Hw.
  rewrite Hy in Hy'. inversion Hy'; subst y'; clear Hy'.
  unfold point_weights in Hw. rewrite HX, Hv, Hnug in Hw.
  destruct (take (rows data) ni') as [pts|] eqn:Hpts; [|discriminate].
  set (n := length ni') in *.
  destruct (Linalg.solve _ _) as [w'|] eqn:Hs; [|discriminate].
  injection Hw as Hw1 Hw2; subst w' b.
  assert (Hlp : length pts = n) by (apply (take_length _ _ _ Hpts)).
  assert (Hld : length (map finite_value nd') = n).
  { rewrite length_map. symmetry. apply kept_length. exact Hlen. }
  assert (Hpt : forall s, (s < n)%nat ->
            nth_error (rows data) (nth s ni' 0%nat) = Some (nth s pts [])).
  { intros s Hs'. rewrite <- (take_nth _ _ _ Hpts s Hs').
    apply nth_error_nth'. lia. }
  assert (Hqj : nth j pts [] = q).
  { specialize (Hpt j Hj). rewrite Hq in Hpt. inversion Hpt; reflexivity. }
  assert (Hfin : forall s, (s < n)%nat ->
            nth s (map finite_value nd') 0 = finite_value (nth s nd' PosInf)).
  { intros s Hs'. rewrite (nth_indep _ 0 (finite_value PosInf)) by lia.
    apply map_nth. }
  assert (Hw : w = unit_vec (S n) j).
  { eapply exact_weights; try exact Hs; try assumption.
    - intros s Hs'. rewrite Hfin by exact Hs'.
      destruct (Hdist s Hs') as [loc [Hloc Hd]].
      rewrite Hd, Hqj. simpl. rewrite Hpt in Hloc by exact Hs'.
      inversion Hloc; reflexivity.
    - destruct Hzero as [Hg|Hnz]; [left; exact Hg|right].
      intros s Hs' Hsj Hz. apply (Hnz s Hs' Hsj).
      rewrite Hfin in Hz by exact Hs'.
      destruct (Hdist s Hs') as [loc [_ Hd]]. rewrite Hd in Hz |- *.
      simpl in Hz. rewrite Hz. reflexivity. }
  subst w. split.
  - rewrite firstn_unit_vec.
    assert (Hly : length ys = n) by (apply (take_length _ _ _ Hys)).
    rewrite dot_unit_vec_l by exact Hly.
    pose proof (take_nth _ _ _ Hys j Hj) as Hyj. rewrite Hval in Hyj.
    apply nth_error_nth_default. exact Hyj.
  - change (dot (unit_vec (S n) j)
              (tabulate (S n) (vector_b gamma false n (map finite_value nd'))) = 0).
    rewrite dot_unit_vec_l by apply tabulate_length.
    rewrite nth_tabulate, vector_b_off by (auto; lia).
    apply Nat.ltb_lt in Hj as Hb. fold n in Hb. rewrite Hb.
    destruct (Req_EM_T (nth j (map finite_value nd') 0) 0) as [|Hne]; [reflexivity|].
    exfalso. apply Hne. rewrite Hfin by exact Hj.
    destruct (Hdist j Hj) as [loc [Hloc Hd]]. rewrite Hd. simpl.
    rewrite Hq in Hloc. inversion Hloc; subst loc.
    apply MetricFacts.metric_dist_self.
Qed.

(** The loop body at a query point with two neighbours at one location,
    with the nugget effect disabled and a variogram that vanishes at zero. *)
Lemma krige_point_singular (self : kriging_ordinary) (radius : ereal)
    (nd : list ereal) (ni : list nat)
    (data : array2) (gamma : R -> R) (pts : list (list R)) (i j : nat) :
  length nd = length ni ->
  _useNugget self = false -> self_X self = Some data ->
  _variogram self = Some gamma -> gamma 0 = 0 ->
  let ni' := kept_idx radius nd ni in
  take (rows data) ni' = Some pts ->
  (i < length ni')%nat -> (j < length ni')%nat -> i <> j ->
  nth i pts [] = nth j pts [] ->
  krige_point self radius nd ni = Abort SingularSystem.
Proof.
  intros Hlen Hnug HX Hv Hg ni' Hpts Hi Hj Hij Hsame.
  unfold krige_point. rewrite Hlen, Nat.eqb_refl. simpl negb. cbv iota.
  fold ni'. destruct (Nat.eqb_spec (length ni') 0); [lia|].
  unfold point_weights. rewrite HX, Hpts, Hv, Hnug.
  rewrite duplicate_singular with (i := i) (j := j); auto.
  apply (take_length _ _ _ Hpts).
Qed.



Section Collaborators.

Variable tie : KDTree.tie_order.
Variable get_neighors_brutal :
  metric -> ndarray -> array2 -> Z -> exn + (list (list ereal) * list (list nat)).

Variable VAR_fit : array2 -> list R -> (R -> R).
Variable lower : string -> string.

Local Abbreviation predict := (Kriging.predict tie get_neighors_brutal).
Local Abbreviation fit := (Kriging.fit VAR_fit).
Local Abbreviation predict_arrays := (Kriging.predict_arrays tie get_neighors_brutal).
Local Abbreviation find_neighbors := (Kriging.find_neighbors tie get_neighors_brutal).







(** Once the checks have passed and the neighbours are found, [predict]
    is the loop over the rows of the two neighbour matrices. *)
Lemma predict_arrays_loop (self : kriging_ordinary) (x x' : ndarray)
    (n_neighbor : Z) (radius : ereal) (DST : list (list ereal))
    (IDX : list (list nat)) :
  validate (n_features self) x n_neighbor radius = inr x' ->
  find_neighbors self x' n_neighbor = inr (DST, IDX) ->
  predict_arrays self x n_neighbor radius =
  inr (loop self radius (combine (combine DST IDX) (seq 0 (len x')))
            (repeat 0 (len x')) (repeat 0 (len x'))).
Proof.
  intros Hv Hn. unfold Kriging.predict_arrays. rewrite Hv, Hn. reflexivity.
Qed.

(** Each position of the returned arrays holds what the loop body
    computed for its row, or the initial zero. *)
Lemma predict_row (self : kriging_ordinary) (x x' : ndarray)
    (n_neighbor : Z) (radius : ereal) (DST : list (list ereal))
    (IDX : list (list nat)) (results errors : list R) :
  validate (n_features self) x n_neighbor radius = inr x' ->
  find_neighbors self x' n_neighbor = inr (DST, IDX) ->
  predict_arrays self x n_neighbor radius = inr (inr (results, errors)) ->
  forall t nd ni, nth_error DST t = Some nd -> nth_error IDX t = Some ni ->
    (t < len x')%nat ->
    row_outcome self radius nd ni 0 0 (nth t results 0) (nth t errors 0).
Proof.
  intros Hv Hn H t nd ni Hd Hi Ht.
  rewrite (predict_arrays_loop _ _ _ _ _ _ _ Hv Hn) in H.
  injection H as H.
  apply loop_inr in H; try (rewrite repeat_length; simpl; lia).
  destruct H as [_ [_ Hrow]].
  specialize (Hrow t nd ni (nth_error_combine _ _ _ _ _ Hd Hi) Ht).
  simpl in Hrow. rewrite !nth_repeat in Hrow. exact Hrow.
Qed.

(** An exception of [predict] is the exception of one of the rows. *)
Lemma predict_raised (self : kriging_ordinary) (x x' : ndarray)
    (n_neighbor : Z) (radius : ereal) (DST : list (list ereal))
    (IDX : list (list nat)) (e : exn) :
  validate (n_features self) x n_neighbor radius = inr x' ->
  find_neighbors self x' n_neighbor = inr (DST, IDX) ->
  predict_arrays self x n_neighbor radius = inr (inl e) ->
  exists t nd ni, nth_error DST t = Some nd /\ nth_error IDX t = Some ni /\
                  (t < len x')%nat /\ krige_point self radius nd ni = Abort e.
Proof.
  intros Hv Hn H.
  rewrite (predict_arrays_loop _ _ _ _ _ _ _ Hv Hn) in H.
  injection H as H. apply loop_inl in H.
  destruct H as [t [nd [ni [Ht [Hlt Ha]]]]].
  apply nth_error_combine_inv in Ht. destruct Ht as [Hd Hi].
  exists t, nd, ni. auto.
Qed.

(** C4: a query point whose neighbourhood is empty after the radius
    filter is skipped.  It raises nothing, so an exception of the batch
    comes from another point; and in the arrays that [predict] returns
    its prediction and its error are zero, while every other point that
    was solved holds its own values. *)
Theorem empty_neighborhood (self : kriging_ordinary) (x x' : ndarray)
    (n_neighbor : Z) (radius : ereal) (DST : list (list ereal))
    (IDX : list (list nat)) (t : nat) (nd : list ereal) (ni : list nat) :
  validate (n_features self) x n_neighbor radius = inr x' ->
  find_neighbors self x' n_neighbor = inr (DST, IDX) ->
  nth_error DST t = Some nd -> nth_error IDX t = Some ni -> (t < len x')%nat ->
  length nd = length ni ->
  kept_idx radius nd ni = [] ->
  krige_point self radius nd ni = Skip /\
  (forall e, predict_arrays self x n_neighbor radius = inr (inl e) ->
     exists t' nd' ni', t' <> t /\ nth_error DST t' = Some nd' /\
       nth_error IDX t' = Some ni' /\ krige_point self radius nd' ni' = Abort e) /\
  (forall results errors,
     predict_arrays self x n_neighbor radius = inr (inr (results, errors)) ->
     nth t results 0 = 0 /\ nth t errors 0 = 0 /\
     forall t' nd' ni' r e, nth_error DST t' = Some nd' ->
       nth_error IDX t' = Some ni' -> (t' < len x')%nat ->
       krige_point self radius nd' ni' = Fill r e ->
       nth t' results 0 = r /\ nth t' errors 0 = e).
Proof.
  intros Hv Hn Hd Hi Ht Hlen Hk.
  pose proof (krige_point_skip self radius nd ni Hlen Hk) as Hskip.
  split; [exact Hskip|]. split.
  - intros e H.
    destruct (predict_raised _ _ _ _ _ _ _ _ Hv Hn H)
      as [t' [nd' [ni' [Hd' [Hi' [Ht' Ha]]]]]].
    exists t', nd', ni'. repeat split; auto.
    intros ->. rewrite Hd in Hd'. rewrite Hi in Hi'.
    inversion Hd'; inversion Hi'; subst. rewrite Hskip in Ha. discriminate.
  - intros results errors H.
    pose proof (predict_row _ _ _ _ _ _ _ _ _ Hv Hn H) as Hrow.
    pose proof (Hrow t nd ni Hd Hi Ht) as H0.
    unfold row_outcome in H0. rewrite Hskip in H0.
    split; [apply H0|]. split; [apply H0|].
    intros t' nd' ni' r e Hd' Hi' Ht' Hf.
    specialize (Hrow t' nd' ni' Hd' Hi' Ht').
    unfold row_outcome in Hrow. rewrite Hf in Hrow. exact Hrow.
Qed.

(** C1, amended: with the nugget effect disabled, at a query point that
    is the location of an observation of its neighbourhood, a solved
    system gives that observation's value as the prediction (and a zero
    error), provided that the neighbour search reports the distances of
    the configured metric and that either no other neighbour lies at
    distance zero or the variogram vanishes at distance zero. *)
Theorem exact_interpolation (self : kriging_ordinary) (x x' : ndarray)
    (n_neighbor : Z) (radius : ereal) (DST : list (list ereal))
    (IDX : list (list nat)) (results errors : list R)
    (t : nat) (nd : list ereal) (ni : list nat) (q : list R)
    (data : array2) (gamma : R -> R) (y : list R) (j : nat) (value : R) :
  _useNugget self = false -> self_X self = Some data ->
  self_y self = Some y -> _variogram self = Some gamma ->
  validate (n_features self) x n_neighbor radius = inr x' ->
  find_neighbors self x' n_neighbor = inr (DST, IDX) ->
  predict_arrays self x n_neighbor radius = inr (inr (results, errors)) ->
  nth_error (points x') t = Some q ->
  nth_error DST t = Some nd -> nth_error IDX t = Some ni -> (t < len x')%nat ->
  let ni' := kept_idx radius nd ni in
  let nd' := kept_dst radius nd in
  (forall s, (s < length ni')%nat ->
     exists loc, nth_error (rows data) (nth s ni' 0%nat) = Some loc /\
                 nth s nd' PosInf = Finite (metric_dist (distance_type self) q loc)) ->
  (j < length ni')%nat ->
  nth_error (rows data) (nth j ni' 0%nat) = Some q ->
  nth_error y (nth j ni' 0%nat) = Some value ->
  (gamma 0 = 0 \/
   forall s, (s < length ni')%nat -> s <> j -> nth s nd' PosInf <> Finite 0) ->
  nth t results 0 = value /\ nth t errors 0 = 0.
Proof.
  intros Hnug HX Hy Hvar Hv Hn H Hqt Hd Hi Ht ni' nd' Hdist Hj Hq Hval Hzero.
  pose proof (predict_row _ _ _ _ _ _ _ _ _ Hv Hn H t nd ni Hd Hi Ht) as Hrow.
  unfold row_outcome in Hrow.
  destruct (krige_point self radius nd ni) as [|r e|] eqn:Hk; [| |contradiction].
  - exfalso. unfold krige_point in Hk.
    destruct (negb (length nd =? length ni)%nat); [discriminate|].
    fold ni' in Hk. destruct (Nat.eqb_spec (length ni') 0); [lia|].
    destruct (point_weights self ni' _) as [|[w b]]; [discriminate|].
    destruct (self_y self); [|discriminate].
    destruct (take l ni'); discriminate.
  - destruct Hrow as [-> ->].
    eapply krige_point_exact; eauto.
Qed.

Lemma loop_first_abort (self : kriging_ordinary) (radius : ereal) (x : exn) :
  forall rws s n res err t nd ni,
  nth_error rws t = Some (nd, ni) -> (t < n)%nat ->
  krige_point self radius nd ni = Abort x ->
  (forall t' nd' ni' e, (t' < t)%nat -> nth_error rws t' = Some (nd', ni') ->
     krige_point self radius nd' ni' <> Abort e) ->
  loop self radius (combine rws (seq s n)) res err = inl x.
Proof.
  induction rws as [|[nd0 ni0] rws IH]; intros s n res err t nd ni Ht Hlt Ha Hbefore.
  - destruct t; discriminate.
  - destruct n as [|n]; [lia|]. simpl.
    destruct t as [|t]; simpl in Ht.
    + inversion Ht; subst. rewrite Ha. reflexivity.
    + assert (H0 : forall e, krige_point self radius nd0 ni0 <> Abort e)
        by (intros e; apply (Hbefore 0%nat nd0 ni0 e); [lia|reflexivity]).
      assert (Hrest : forall t' nd' ni' e, (t' < t)%nat ->
                nth_error rws t' = Some (nd', ni') ->
                krige_point self radius nd' ni' <> Abort e)
        by (intros t' nd' ni' e Ht' Hn'; apply (Hbefore (S t') nd' ni' e); [lia|exact Hn']).
      destruct (krige_point self radius nd0 ni0) as [|r e|e].
      * apply (IH _ _ _ _ t nd ni); auto. lia.
      * apply (IH _ _ _ _ t nd ni); auto. lia.
      * exfalso. apply (H0 e). reflexivity.
Qed.

(** C5, amended: with the nugget effect disabled and a variogram that
    vanishes at distance zero, a query point with two neighbours at one
    location has a singular system; the exception leaves [predict], so
    the batch returns no arrays, and it is this exception that is raised
    unless an earlier point of the batch raised one. *)
Theorem duplicate_neighbors_abort (self : kriging_ordinary) (x x' : ndarray)
    (n_neighbor : Z) (radius : ereal) (get_error : bool)
    (DST : list (list ereal)) (IDX : list (list nat))
    (t : nat) (nd : list ereal) (ni : list nat)
    (data : array2) (gamma : R -> R) (pts : list (list R)) (i j : nat) :
  _useNugget self = false -> self_X self = Some data ->
  _variogram self = Some gamma -> gamma 0 = 0 ->
  validate (n_features self) x n_neighbor radius = inr x' ->
  find_neighbors self x' n_neighbor = inr (DST, IDX) ->
  nth_error DST t = Some nd -> nth_error IDX t = Some ni -> (t < len x')%nat ->
  length nd = length ni ->
  let ni' := kept_idx radius nd ni in
  take (rows data) ni' = Some pts ->
  (i < length ni')%nat -> (j < length ni')%nat -> i <> j ->
  nth i pts [] = nth j pts [] ->
  krige_point self radius nd ni = Abort SingularSystem /\
  (exists e, predict self x n_neighbor radius get_error = Raised e) /\
  ((forall t' nd' ni' e, (t' < t)%nat -> nth_error DST t' = Some nd' ->
      nth_error IDX t' = Some ni' -> krige_point self radius nd' ni' <> Abort e) ->
   predict self x n_neighbor radius get_error = Raised SingularSystem).
Proof.
  intros Hnug HX Hvar Hg Hv Hn Hd Hi Ht Hlen ni' Hpts Hi' Hj' Hij Hsame.
  assert (Ha : krige_point self radius nd ni = Abort SingularSystem)
    by (apply (krige_point_singular self radius nd ni data gamma pts i j); assumption).
  split; [exact Ha|]. split.
  - unfold Kriging.predict.
    destruct (predict_arrays self x n_neighbor radius) as [r|[e|[results errors]]] eqn:H.
    + unfold Kriging.predict_arrays in H. rewrite Hv in H. discriminate.
    + exists e. reflexivity.
    + exfalso.
      pose proof (predict_row _ _ _ _ _ _ _ _ _ Hv Hn H t nd ni Hd Hi Ht) as Hrow.
      unfold row_outcome in Hrow. rewrite Ha in Hrow. exact Hrow.
  - intros Hbefore. unfold Kriging.predict.
    rewrite (predict_arrays_loop _ _ _ _ _ _ _ Hv Hn).
    rewrite (loop_first_abort self radius SingularSystem _ _ _ _ _ t nd ni);
      auto using nth_error_combine.
    intros t' nd1 ni1 e Hlt Hc. apply nth_error_combine_inv in Hc.
    destruct Hc as [Hd1 Hi1]. eapply Hbefore; eauto.
Qed.


(** What [fit] stores. *)
Lemma fit_inr (self0 self : kriging_ordinary) (X : array2) (y : list R) :
  fit self0 X y = inr self ->
  length (rows X) = length y /\ n_features self = ncols X /\
  self_X self = Some X /\ self_y self = Some y /\
  (exists v, _variogram self = Some v) /\
  _useNugget self = _useNugget self0 /\ _algorithm self = _algorithm self0 /\
  distance_type self = distance_type self0.
Proof.
  unfold Kriging.fit.
  destruct (Nat.eqb_spec (length (rows X)) (length y)) as [E|]; [|discriminate].
  simpl. intros H. inversion H; subst; simpl. repeat split; eauto.
Qed.

(** With the kdtree algorithm each row of the neighbour matrices is the
    answer of the tree for one query point. *)
Lemma find_neighbors_kdtree (self : kriging_ordinary) (data : array2) (x' : ndarray)
    (n_neighbor : Z) (DST : list (list ereal)) (IDX : list (list nat))
    (t : nat) (nd : list ereal) (ni : list nat) :
  _algorithm self = Kdtree -> self_X self = Some data ->
  find_neighbors self x' n_neighbor = inr (DST, IDX) ->
  nth_error DST t = Some nd -> nth_error IDX t = Some ni ->
  exists q p,
    nd = fst (KDTree.query_point tie (rows data) q (Z.to_nat n_neighbor) p) /\
    ni = snd (KDTree.query_point tie (rows data) q (Z.to_nat n_neighbor) p).
Proof.
  intros Halg HX H Hd Hi. unfold Kriging.find_neighbors in H.
  rewrite HX, Halg in H.
  assert (G : forall p, KDTree.query tie data x' (Z.to_nat n_neighbor) p = inr (DST, IDX) ->
            exists q,
              nd = fst (KDTree.query_point tie (rows data) q (Z.to_nat n_neighbor) p) /\
              ni = snd (KDTree.query_point tie (rows data) q (Z.to_nat n_neighbor) p)).
  { intros p Hq. unfold KDTree.query in Hq.
    destruct (Nat.eqb _ (ncols data)); [|discriminate].
    inversion Hq; subst DST IDX; clear Hq.
    rewrite map_map in Hd, Hi.
    rewrite nth_error_map in Hd, Hi.
    destruct (nth_error _ t) as [q|]; [|discriminate].
    simpl in Hd, Hi. inversion Hd; inversion Hi. exists q. split; reflexivity. }
  destruct (distance_type self).
  - destruct (G _ H) as [q Hq]. exists q, KDTree.P2. exact Hq.
  - destruct (G _ H) as [q Hq]. exists q, KDTree.P1. exact Hq.
Qed.

(** The loop body raises [IndexError] only on a mask of the wrong
    length or on an index past the end of the data. *)
Lemma krige_point_in_bounds (self : kriging_ordinary) (radius : ereal)
    (nd : list ereal) (ni : list nat) (data : array2) (y : list R) :
  self_X self = Some data -> self_y self = Some y ->
  length nd = length ni ->
  Forall (fun i => (i < length (rows data))%nat) (kept_idx radius nd ni) ->
  length y = length (rows data) ->
  krige_point self radius nd ni <> Abort IndexError.
Proof.
  intros HX Hy Hlen Hb Hyl. unfold krige_point.
  rewrite Hlen, Nat.eqb_refl. simpl negb. cbv iota.
  destruct (length (kept_idx radius nd ni) =? 0)%nat; [discriminate|].
  unfold point_weights. rewrite HX, Hy.
  destruct (take_in_bounds (rows data) _ Hb) as [pts ->].
  rewrite <- Hyl in Hb. destruct (take_in_bounds y _ Hb) as [ys ->].
  destruct (_variogram self); [|discriminate].
  destruct (Linalg.solve _ _); discriminate.
Qed.

(** With the kdtree algorithm the neighbour search reports the distances
    of the configured metric from the query point, as C1 asks of it. *)
Lemma kdtree_reports_distances (self : kriging_ordinary) (data a : array2)
    (n_neighbor : Z) (radius : ereal) (DST : list (list ereal))
    (IDX : list (list nat)) (t : nat) (nd : list ereal) (ni : list nat)
    (q : list R) :
  _algorithm self = Kdtree -> self_X self = Some data ->
  find_neighbors self (Arr2 a) n_neighbor = inr (DST, IDX) ->
  nth_error (rows a) t = Some q ->
  nth_error DST t = Some nd -> nth_error IDX t = Some ni ->
  forall s, (s < length (kept_idx radius nd ni))%nat ->
    exists loc,
      nth_error (rows data) (nth s (kept_idx radius nd ni) 0%nat) = Some loc /\
      nth s (kept_dst radius nd) PosInf =
        Finite (metric_dist (distance_type self) q loc).
Proof.
  intros Halg HX H Hq Hd Hi s Hs. unfold Kriging.find_neighbors in H.
  rewrite HX, Halg in H.
  assert (G : exists p,
            (forall u v, KDTree.minkowski p u v = metric_dist (distance_type self) u v) /\
            nd = fst (KDTree.query_point tie (rows data) q (Z.to_nat n_neighbor) p) /\
            ni = snd (KDTree.query_point tie (rows data) q (Z.to_nat n_neighbor) p)).
  { assert (G' : forall p,
              KDTree.query tie data (Arr2 a) (Z.to_nat n_neighbor) p = inr (DST, IDX) ->
              nd = fst (KDTree.query_point tie (rows data) q (Z.to_nat n_neighbor) p) /\
              ni = snd (KDTree.query_point tie (rows data) q (Z.to_nat n_neighbor) p)).
    { intros p Hp. unfold KDTree.query in Hp.
      destruct (Nat.eqb _ (ncols data)); [|discriminate].
      inversion Hp; subst DST IDX; clear Hp.
      rewrite map_map, nth_error_map, Hq in Hd, Hi.
      simpl in Hd, Hi. inversion Hd; inversion Hi. split; reflexivity. }
    destruct (distance_type self).
    - exists KDTree.P2. split; [reflexivity|apply G'; exact H].
    - exists KDTree.P1. split; [reflexivity|apply G'; exact H]. }
  destruct G as [p [Hp [Hnd Hni]]].
  destruct (KDTreeFacts.query_point_length tie (rows data) q (Z.to_nat n_neighbor) p)
    as [L1 L2].
  rewrite <- Hnd in L1. rewrite <- Hni in L2.
  assert (Hlen : length nd = length ni) by congruence.
  pose proof (KDTreeFacts.query_point_pairs tie (rows data) q (Z.to_nat n_neighbor) p)
    as Hpairs.
  rewrite <- Hnd, <- Hni in Hpairs.
  pose proof (kept_length radius nd ni Hlen) as Hk.
  assert (Hin : In (nth s (kept_dst radius nd) PosInf, nth s (kept_idx radius nd ni) 0%nat)
                   (combine (kept_dst radius nd) (kept_idx radius nd ni))).
  { rewrite <- combine_nth by (symmetry; exact Hk).
    apply nth_In. rewrite length_combine. lia. }
  rewrite kept_pairs in Hin. apply filter_In in Hin. destruct Hin as [Hin Hlt].
  apply Hpairs in Hin.
  destruct Hin as [[E _]|[_ [loc [Hloc Hd']]]].
  - simpl in Hlt. rewrite E in Hlt. discriminate.
  - exists loc. split; [exact Hloc|]. rewrite Hd', Hp. reflexivity.
Qed.

(** C10: with the kdtree algorithm every row of the neighbour matrices
    has [n_neighbor] slots; the slots past the number [N] of observations
    hold the distance [inf] and the index [N]; none of them passes the
    radius filter, whatever the radius: the kept distances are finite and
    the kept indices are below [N], so the locations and the values of
    the neighbours are read within bounds and [predict] does not raise
    [IndexError]. *)
Theorem kdtree_sentinels_dropped (self0 self : kriging_ordinary) (X : array2)
    (y : list R) (x x' : ndarray) (n_neighbor : Z) (radius : ereal)
    (get_error : bool) (DST : list (list ereal)) (IDX : list (list nat)) :
  fit self0 X y = inr self -> _algorithm self0 = Kdtree ->
  validate (n_features self) x n_neighbor radius = inr x' ->
  find_neighbors self x' n_neighbor = inr (DST, IDX) ->
  let N := length (rows X) in
  let k := Z.to_nat n_neighbor in
  (forall t nd ni, nth_error DST t = Some nd -> nth_error IDX t = Some ni ->
     length nd = k /\ length ni = k /\
     (forall s, (N <= s < k)%nat ->
        nth s nd (Finite 0) = PosInf /\ nth s ni 0%nat = N) /\
     Forall (fun d => exists r, d = Finite r) (kept_dst radius nd) /\
     Forall (fun i => (i < N)%nat) (kept_idx radius nd ni) /\
     (exists pts, take (rows X) (kept_idx radius nd ni) = Some pts) /\
     (exists ys, take y (kept_idx radius nd ni) = Some ys) /\
     krige_point self radius nd ni <> Abort IndexError) /\
  predict self x n_neighbor radius get_error <> Raised IndexError.
Proof.
  intros Hfit Halg Hv Hn N k.
  destruct (fit_inr _ _ _ _ Hfit) as [Hly [_ [HX [Hy [_ [_ [Halg' _]]]]]]].
  rewrite Halg in Halg'.
  assert (Hrows : forall t nd ni, nth_error DST t = Some nd -> nth_error IDX t = Some ni ->
            length nd = k /\ length ni = k /\
            (forall s, (N <= s < k)%nat ->
               nth s nd (Finite 0) = PosInf /\ nth s ni 0%nat = N) /\
            Forall (fun i => (i < N)%nat) (kept_idx radius nd ni)).
  { intros t nd ni Hd Hi.
    destruct (find_neighbors_kdtree _ _ _ _ _ _ _ _ _ Halg' HX Hn Hd Hi)
      as [q [p [-> ->]]].
    destruct (KDTreeFacts.query_point_length tie (rows X) q k p) as [H1 H2].
    split; [exact H1|]. split; [exact H2|]. split.
    - intros s Hs. apply KDTreeFacts.query_point_sentinel. exact Hs.
    - apply KDTreeFacts.kept_in_bounds. }
  assert (Hno : forall t nd ni, nth_error DST t = Some nd -> nth_error IDX t = Some ni ->
            krige_point self radius nd ni <> Abort IndexError).
  { intros t nd ni Hd Hi. destruct (Hrows t nd ni Hd Hi) as [H1 [H2 [_ Hb]]].
    apply (krige_point_in_bounds self radius nd ni X y); auto; congruence. }
  split.
  - intros t nd ni Hd Hi. destruct (Hrows t nd ni Hd Hi) as [H1 [H2 [Hs Hb]]].
    repeat split; auto.
    + apply Hs; assumption.
    + apply Hs; assumption.
    + eapply Forall_impl; [|apply kept_finite].
      intros d Hd'. exists (finite_value d). exact Hd'.
    + apply take_in_bounds. exact Hb.
    + apply take_in_bounds. unfold N in Hb. rewrite Hly in Hb. exact Hb.
    + apply (Hno t nd ni Hd Hi).
  - unfold Kriging.predict.
    destruct (predict_arrays self x n_neighbor radius) as [r|[e|[results errors]]] eqn:H;
      try discriminate.
    intros E. inversion E; subst e.
    destruct (predict_raised _ _ _ _ _ _ _ _ Hv Hn H) as [t [nd [ni [Hd [Hi [_ Ha]]]]]].
    exact (Hno t nd ni Hd Hi Ha).
Qed.

End Collaborators.

End KrigingFacts.

(** ** The scenarios *)

Module ScenarioFacts.
Import Kriging Scenario.

Lemma euclidean_1d (a b : R) : euclidean [a] [b] = Rabs (a - b).
Proof. apply (MetricFacts.metric_dist_1d Euclidean). Qed.

Ltac decide_one :=
  match goal with
  | |- context [Rcase_abs ?a] => destruct (Rcase_abs a); try (exfalso; lra)
  | |- context [Rlt_dec ?a ?b] => destruct (Rlt_dec a b); try (exfalso; lra)
  | |- context [Rle_dec ?a ?b] => destruct (Rle_dec a b); try (exfalso; lra)
  | |- context [Req_EM_T ?a ?b] => destruct (Req_EM_T a b); try (exfalso; lra)
  end.

(** Evaluation of the three computations on numbers. *)
Ltac numbers :=
  repeat first
    [ progress cbn [KDTree.insert fold_right fst snd firstn map app repeat length
                    Nat.sub Nat.add Nat.eqb Nat.ltb Nat.leb seq combine nth filter
                    negb andb orb hd tl bind dot
                    Linalg.gauss Linalg.pick_pivot Linalg.axpy]
    | progress rewrite ?euclidean_1d
    | progress unfold Rabs, linear_variogram, data_order, KDTree.query_point, KDTree.nearest,
        KDTree.sort, KDTree.before, KDTree.minkowski, kriging_system, cdist, tabulate2, tabulate,
        matrix_a, vector_b, metric_dist, Linalg.solve, Linalg.eliminate, Linalg.lead
    | decide_one ].

(** Equality of the structures, down to the numbers. *)
Ltac same tac :=
  repeat match goal with
  | |- ?a = ?a => reflexivity
  | |- @eq R _ _ => tac
  | |- @eq nat _ _ => reflexivity
  | |- Some _ = Some _ => apply f_equal
  | |- Finite _ = Finite _ => apply f_equal
  | |- Fill _ _ = Fill _ _ => apply f_equal2
  | |- (_, _) = (_, _) => apply f_equal2
  | |- _ :: _ = _ :: _ => apply f_equal2
  | |- [] = [] => reflexivity
  end.

Ltac by_field := field; repeat split; lra.

(** Evaluation of [predict] around them. *)
Ltac outer :=
  cbn [loop krige_point point_weights kept_idx kept_dst within mask
       query1 atleast_2d len ereal_nonpos ereal_ltb points
       n_features _variogram _useNugget _algorithm distance_type self_X self_y
       ncols rows finite_value upd take
       fitted line_X line_y twins twin_X twin_y lone lone_X lone_y
       fst snd firstn map app repeat length
       Nat.sub Nat.add Nat.eqb Nat.ltb Nat.leb seq combine nth nth_error filter
       negb andb orb hd tl bind dot].

Lemma fit_line : fit no_VAR_fit unfitted line_X line_y = inr fitted.
Proof. reflexivity. Qed.

Lemma linear_variogram_model (slope nugget d : R) :
  Distribution.linear [slope; nugget] d = Some (linear_variogram slope nugget d).
Proof. reflexivity. Qed.

(** queries of one point in one dimension *)
Lemma validate_query1 (self : kriging_ordinary) (v : R) (k : Z) (radius : ereal) :
  n_features self = 1%nat -> (0 < k)%Z -> ereal_nonpos radius = false ->
  validate (n_features self) (query1 v) k radius = inr (atleast_2d [v]).
Proof.
  intros -> Hk Hr. unfold validate. simpl.
  destruct (Z.leb_spec k 0); [lia|]. rewrite Hr. reflexivity.
Qed.

Lemma find_neighbors_query1 (self : kriging_ordinary) (data : array2) (v : R) (k : Z) :
  _algorithm self = Kdtree -> distance_type self = Euclidean ->
  self_X self = Some data -> ncols data = 1%nat ->
  find_neighbors data_order no_brutal self (atleast_2d [v]) k =
  inr ([fst (KDTree.query_point data_order (rows data) [v] (Z.to_nat k) KDTree.P2)],
       [snd (KDTree.query_point data_order (rows data) [v] (Z.to_nat k) KDTree.P2)]).
Proof.
  intros Ha Hd HX Hc. unfold find_neighbors, KDTree.query. rewrite HX, Ha, Hd. simpl.
  rewrite Hc. reflexivity.
Qed.

Lemma predict_query1 (self : kriging_ordinary) (data : array2) (v : R) (k : Z)
    (radius : ereal) (nd : list ereal) (ni : list nat) :
  n_features self = 1%nat -> (0 < k)%Z -> ereal_nonpos radius = false ->
  _algorithm self = Kdtree -> distance_type self = Euclidean ->
  self_X self = Some data -> ncols data = 1%nat ->
  KDTree.query_point data_order (rows data) [v] (Z.to_nat k) KDTree.P2 = (nd, ni) ->
  predict_arrays data_order no_brutal self (query1 v) k radius =
  inr (match krige_point self radius nd ni with
       | Skip => inr ([0], [0])
       | Fill r e => inr ([r], [e])
       | Abort x => inl x
       end).
Proof.
  intros HF Hk Hr Ha Hd HX Hc Hq. unfold predict_arrays.
  rewrite (validate_query1 self v k radius HF Hk Hr).
  rewrite (find_neighbors_query1 self data v k Ha Hd HX Hc), Hq. reflexivity.
Qed.

Lemma query_line_0 :
  KDTree.query_point data_order (rows line_X) [0] 2 KDTree.P2 = ([Finite 0; Finite 1], [0%nat; 1%nat]).
Proof. unfold line_X; cbn [rows]. numbers; same lra. Qed.

Lemma query_line_10 :
  KDTree.query_point data_order (rows line_X) [10] 2 KDTree.P2 = ([Finite 7; Finite 8], [3%nat; 2%nat]).
Proof. unfold line_X; cbn [rows]. numbers; same lra. Qed.

Lemma query_twin (v : R) : 0 <= v ->
  KDTree.query_point data_order (rows twin_X) [v] 2 KDTree.P2 = ([Finite v; Finite v], [0%nat; 1%nat]).
Proof. intros Hv. unfold twin_X; cbn [rows]. numbers; same lra. Qed.

Lemma system_line_0 :
  kriging_system (linear_variogram 1 0) false Euclidean 2 [[0]; [1]] [0; 1] =
  ([[0; 1; 1]; [1; 0; 1]; [1; 1; 0]], [0; 1; 1]).
Proof. numbers; same lra. Qed.

Lemma solve_line_0 :
  Linalg.solve [[0; 1; 1]; [1; 0; 1]; [1; 1; 0]] [0; 1; 1] = Some [1; 0; 0].
Proof. numbers; same by_field. Qed.

Lemma system_twin_1 (v : R) : 0 < v ->
  kriging_system (linear_variogram 1 1) false Euclidean 2 [[0]; [0]] [v; v] =
  ([[0; 1; 1]; [1; 0; 1]; [1; 1; 0]], [v + 1; v + 1; 1]).
Proof. intros Hv. numbers; same lra. Qed.

Lemma system_twin_1_at_0 :
  kriging_system (linear_variogram 1 1) false Euclidean 2 [[0]; [0]] [0; 0] =
  ([[0; 1; 1]; [1; 0; 1]; [1; 1; 0]], [0; 0; 1]).
Proof. numbers; same lra. Qed.

Lemma solve_twin_1 (c : R) :
  Linalg.solve [[0; 1; 1]; [1; 0; 1]; [1; 1; 0]] [c; c; 1] = Some [1 / 2; 1 / 2; c - 1 / 2].
Proof. numbers; same by_field. Qed.

Lemma krige_line_0 :
  krige_point fitted PosInf [Finite 0; Finite 1] [0%nat; 1%nat] = Fill 1 0.
Proof.
  unfold krige_point, point_weights. outer. rewrite system_line_0. cbn [fst snd].
  rewrite solve_line_0. outer. same lra.
Qed.

Lemma predict_line_0 :
  predict data_order no_brutal fitted (query1 0) 2 PosInf true = Results [1] (Some [0]).
Proof.
  unfold predict.
  rewrite (predict_query1 fitted line_X 0 2 PosInf _ _ eq_refl eq_refl eq_refl eq_refl
             eq_refl eq_refl eq_refl query_line_0).
  rewrite krige_line_0. reflexivity.
Qed.


Lemma krige_twin_1_at_0 :
  krige_point (twins 1) PosInf [Finite 0; Finite 0] [0%nat; 1%nat] = Fill 2 (- (1 / 2)).
Proof.
  unfold krige_point, point_weights. outer. rewrite system_twin_1_at_0. cbn [fst snd].
  rewrite solve_twin_1. outer. same lra.
Qed.

Lemma krige_twin_1_at_5 :
  krige_point (twins 1) PosInf [Finite 5; Finite 5] [0%nat; 1%nat] = Fill 2 (23 / 2).
Proof.
  unfold krige_point, point_weights. outer. rewrite system_twin_1 by lra. cbn [fst snd].
  rewrite solve_twin_1. outer. same lra.
Qed.

Lemma predict_twin_1_at_0 :
  predict data_order no_brutal (twins 1) (query1 0) 2 PosInf false = Results [2] None.
Proof.
  unfold predict.
  rewrite (predict_query1 (twins 1) twin_X 0 2 PosInf _ _ eq_refl eq_refl eq_refl
             eq_refl eq_refl eq_refl eq_refl (query_twin 0 (Rle_refl 0))).
  rewrite krige_twin_1_at_0. reflexivity.
Qed.

Lemma five_nonneg : 0 <= 5.
Proof. lra. Qed.

Lemma predict_twin_1_at_5 :
  predict data_order no_brutal (twins 1) (query1 5) 2 PosInf false = Results [2] None.
Proof.
  unfold predict.
  rewrite (predict_query1 (twins 1) twin_X 5 2 PosInf _ _ eq_refl eq_refl eq_refl
             eq_refl eq_refl eq_refl eq_refl (query_twin 5 five_nonneg)).
  rewrite krige_twin_1_at_5. reflexivity.
Qed.

Lemma small_radius : ereal_nonpos (Finite (1 / 100)) = false.
Proof. simpl. destruct (Rle_dec (1 / 100) 0); [lra|reflexivity]. Qed.

Lemma kept_line_10 :
  kept_idx (Finite (1 / 100)) [Finite 7; Finite 8] [3%nat; 2%nat] = [].
Proof.
  unfold kept_idx, within, mask. cbn [map ereal_ltb].
  repeat (decide_one; cbn [combine filter fst snd map]). reflexivity.
Qed.

Lemma predict_line_10 :
  predict data_order no_brutal fitted (query1 10) 2 (Finite (1 / 100)) true = Results [0] (Some [0]).
Proof.
  unfold predict.
  rewrite (predict_query1 fitted line_X 10 2 (Finite (1 / 100)) _ _ eq_refl eq_refl
             small_radius eq_refl eq_refl eq_refl eq_refl query_line_10).
  rewrite KrigingFacts.krige_point_skip; [reflexivity|reflexivity|apply kept_line_10].
Qed.

Lemma query_lone :
  KDTree.query_point data_order (rows lone_X) [0] 2 KDTree.P2 = ([Finite 0; PosInf], [0%nat; 1%nat]).
Proof. unfold lone_X; cbn [rows]. numbers; same lra. Qed.

Lemma fit_lone : fit no_VAR_fit unfitted lone_X lone_y = inr lone.
Proof. reflexivity. Qed.


Lemma predict_arrays_line_0 :
  predict_arrays data_order no_brutal fitted (query1 0) 2 PosInf = inr (inr ([1], [0])).
Proof.
  rewrite (predict_query1 fitted line_X 0 2 PosInf _ _ eq_refl eq_refl eq_refl eq_refl
             eq_refl eq_refl eq_refl query_line_0).
  rewrite krige_line_0. reflexivity.
Qed.

Lemma find_neighbors_line_0 :
  find_neighbors data_order no_brutal fitted (atleast_2d [0]) 2 =
  inr ([[Finite 0; Finite 1]], [[0%nat; 1%nat]]).
Proof.
  rewrite (find_neighbors_query1 fitted line_X 0 2 eq_refl eq_refl eq_refl eq_refl).
  change (Z.to_nat 2) with 2%nat. rewrite query_line_0. reflexivity.
Qed.

(** The scenario of C1: the query [0] on the line returns 1. *)
Lemma exact_interpolation_witness :
  predict data_order no_brutal fitted (query1 0) 2 PosInf true = Results [1] (Some [0]) /\
  nth 0 [1] 0 = 1 /\ nth 0 [0] 0 = 0.
Proof.
  split; [exact predict_line_0|].
  apply (KrigingFacts.exact_interpolation data_order no_brutal fitted (query1 0) (atleast_2d [0])
           2 PosInf [[Finite 0; Finite 1]] [[0%nat; 1%nat]] [1] [0] 0
           [Finite 0; Finite 1] [0%nat; 1%nat] [0] line_X (linear_variogram 1 0)
           line_y 0 1).
  - reflexivity.
  - reflexivity.
  - reflexivity.
  - reflexivity.
  - reflexivity.
  - exact find_neighbors_line_0.
  - exact predict_arrays_line_0.
  - reflexivity.
  - reflexivity.
  - reflexivity.
  - simpl; lia.
  - intros [|[|s]] Hs; simpl in Hs; try lia.
    + exists [0]. split; [reflexivity|]. simpl.
      rewrite euclidean_1d, Rminus_diag, Rabs_R0. reflexivity.
    + exists [1]. split; [reflexivity|]. simpl.
      rewrite euclidean_1d. replace (0 - 1) with (- (1)) by ring.
      rewrite Rabs_Ropp, Rabs_R1. reflexivity.
  - simpl; lia.
  - reflexivity.
  - reflexivity.
  - left. unfold linear_variogram. ring.
Defined.

(** C1, as stated, does not hold: the query coincides with the first
    twin (location [0], value 1) and with the second (value 3), both are
    in its neighbourhood at distance zero, the nugget effect is disabled
    and the system is solved; the prediction is 2. *)
Lemma twins_not_interpolated :
  _useNugget (twins 1) = false /\
  nth_error (rows twin_X) 0 = Some [0] /\ nth_error twin_y 0 = Some 1 /\
  KDTree.query_point data_order (rows twin_X) [0] 2 KDTree.P2 =
    ([Finite 0; Finite 0], [0%nat; 1%nat]) /\
  kept_idx PosInf [Finite 0; Finite 0] [0%nat; 1%nat] = [0%nat; 1%nat] /\
  predict data_order no_brutal (twins 1) (query1 0) 2 PosInf false = Results [2] None /\
  2 <> 1.
Proof.
  repeat split; try reflexivity.
  - exact (query_twin 0 (Rle_refl 0)).
  - exact predict_twin_1_at_0.
  - lra.
Qed.


Lemma point_weights_line_0 :
  point_weights fitted (kept_idx PosInf [Finite 0; Finite 1] [0%nat; 1%nat])
                (map finite_value (kept_dst PosInf [Finite 0; Finite 1])) =
  inr ([1; 0; 0], [0; 1; 1]).
Proof.
  unfold point_weights. outer. rewrite system_line_0. cbn [fst snd].
  rewrite solve_line_0. reflexivity.
Qed.

(** The scenario of C2: the weights of the query [0] on the line. *)
Lemma weights_sum_to_one_witness :
  sum (firstn (length (kept_idx PosInf [Finite 0; Finite 1] [0%nat; 1%nat])) [1; 0; 0]) = 1.
Proof.
  apply (KrigingFacts.weights_sum_to_one fitted PosInf [Finite 0; Finite 1]
           [0%nat; 1%nat] [1; 0; 0] [0; 1; 1]).
  - reflexivity.
  - exact point_weights_line_0.
Defined.

Lemma find_neighbors_line_10 :
  find_neighbors data_order no_brutal fitted (atleast_2d [10]) 2 =
  inr ([[Finite 7; Finite 8]], [[3%nat; 2%nat]]).
Proof.
  rewrite (find_neighbors_query1 fitted line_X 10 2 eq_refl eq_refl eq_refl eq_refl).
  change (Z.to_nat 2) with 2%nat. rewrite query_line_10. reflexivity.
Qed.

(** The scenario of C4: with radius 0.01 the query [10] on the line has
    no neighbour left; the prediction and the error are zero. *)
Lemma empty_neighborhood_witness :
  krige_point fitted (Finite (1 / 100)) [Finite 7; Finite 8] [3%nat; 2%nat] = Skip /\
  predict data_order no_brutal fitted (query1 10) 2 (Finite (1 / 100)) true = Results [0] (Some [0]).
Proof.
  destruct (KrigingFacts.empty_neighborhood data_order no_brutal fitted (query1 10)
              (atleast_2d [10]) 2 (Finite (1 / 100))
              [[Finite 7; Finite 8]] [[3%nat; 2%nat]] 0
              [Finite 7; Finite 8] [3%nat; 2%nat]) as [Hskip _].
  - apply validate_query1; [reflexivity|lia|exact small_radius].
  - exact find_neighbors_line_10.
  - reflexivity.
  - reflexivity.
  - simpl; lia.
  - reflexivity.
  - exact kept_line_10.
  - split; [exact Hskip|exact predict_line_10].
Defined.

Lemma find_neighbors_twin (c v : R) : 0 <= v ->
  find_neighbors data_order no_brutal (twins c) (atleast_2d [v]) 2 =
  inr ([[Finite v; Finite v]], [[0%nat; 1%nat]]).
Proof.
  intros Hv.
  rewrite (find_neighbors_query1 (twins c) twin_X v 2 eq_refl eq_refl eq_refl eq_refl).
  change (Z.to_nat 2) with 2%nat. rewrite (query_twin v Hv). reflexivity.
Qed.

(** C5, as stated, does not hold: the two neighbours of the query [5]
    are the twins, at one location, and the nugget effect is disabled;
    under a variogram with nugget 1 the system is solved and [predict]
    returns 2. *)
Lemma twins_solved :
  _useNugget (twins 1) = false /\
  nth_error (rows twin_X) 0 = nth_error (rows twin_X) 1 /\
  KDTree.query_point data_order (rows twin_X) [5] 2 KDTree.P2 =
    ([Finite 5; Finite 5], [0%nat; 1%nat]) /\
  kept_idx PosInf [Finite 5; Finite 5] [0%nat; 1%nat] = [0%nat; 1%nat] /\
  krige_point (twins 1) PosInf [Finite 5; Finite 5] [0%nat; 1%nat] = Fill 2 (23 / 2) /\
  predict data_order no_brutal (twins 1) (query1 5) 2 PosInf false = Results [2] None.
Proof.
  repeat split; try reflexivity.
  - exact (query_twin 5 five_nonneg).
  - exact krige_twin_1_at_5.
  - exact predict_twin_1_at_5.
Qed.

(** The scenario of C5: under the variogram without nugget the same query
    fails, and so does the batch. *)
Lemma duplicate_neighbors_abort_witness :
  krige_point (twins 0) PosInf [Finite 5; Finite 5] [0%nat; 1%nat] = Abort SingularSystem /\
  predict data_order no_brutal (twins 0) (query1 5) 2 PosInf false = Raised SingularSystem.
Proof.
  destruct (KrigingFacts.duplicate_neighbors_abort data_order no_brutal (twins 0) (query1 5)
              (atleast_2d [5]) 2 PosInf false
              [[Finite 5; Finite 5]] [[0%nat; 1%nat]] 0
              [Finite 5; Finite 5] [0%nat; 1%nat] twin_X (linear_variogram 1 0)
              [[0]; [0]] 0 1) as [Ha [_ Hp]].
  - reflexivity.
  - reflexivity.
  - reflexivity.
  - unfold linear_variogram. ring.
  - reflexivity.
  - exact (find_neighbors_twin 0 5 five_nonneg).
  - reflexivity.
  - reflexivity.
  - simpl; lia.
  - reflexivity.
  - reflexivity.
  - simpl; lia.
  - simpl; lia.
  - discriminate.
  - reflexivity.
  - split; [exact Ha|]. apply Hp. intros t' nd' ni' e Hlt. lia.
Defined.

(** The scenario of C6: a row with one neighbour inside the radius 3/2,
    one outside and one missing. *)
Lemma radius_filter_witness :
  kept_dst (Finite (3 / 2)) [Finite 1; Finite 2; PosInf] = [Finite 1] /\
  kept_idx (Finite (3 / 2)) [Finite 1; Finite 2; PosInf] [1%nat; 2%nat; 4%nat] = [1%nat] /\
  krige_point fitted (Finite (3 / 2))
    (kept_dst (Finite (3 / 2)) [Finite 1; Finite 2; PosInf])
    (kept_idx (Finite (3 / 2)) [Finite 1; Finite 2; PosInf] [1%nat; 2%nat; 4%nat]) =
  krige_point fitted (Finite (3 / 2)) [Finite 1; Finite 2; PosInf] [1%nat; 2%nat; 4%nat].
Proof.
  assert (H1 : kept_dst (Finite (3 / 2)) [Finite 1; Finite 2; PosInf] = [Finite 1]).
  { unfold kept_dst, within, mask. cbn [map ereal_ltb].
    repeat (decide_one; cbn [combine filter fst snd map]). reflexivity. }
  assert (H2 : kept_idx (Finite (3 / 2)) [Finite 1; Finite 2; PosInf]
                 [1%nat; 2%nat; 4%nat] = [1%nat]).
  { unfold kept_idx, within, mask. cbn [map ereal_ltb].
    repeat (decide_one; cbn [combine filter fst snd map]). reflexivity. }
  split; [exact H1|]. split; [exact H2|].
  apply (KrigingFacts.radius_filter fitted (Finite (3 / 2))
           [Finite 1; Finite 2; PosInf] [1%nat; 2%nat; 4%nat]).
  reflexivity.
Defined.

(** The scenario of C7: the system of the query [0] on the line. *)
Lemma nugget_policy_witness :
  nth 0 (nth 0 (fst (kriging_system (linear_variogram 1 0) false Euclidean 2
                       [[0]; [1]] [0; 1])) []) 0 = 0 /\
  nth 0 (snd (kriging_system (linear_variogram 1 0) false Euclidean 2
                [[0]; [1]] [0; 1])) 0 = 0 /\
  nth 0 (snd (kriging_system (linear_variogram 1 0) true Euclidean 2
                [[0]; [1]] [0; 1])) 0 = linear_variogram 1 0 0.
Proof.
  destruct (KrigingFacts.nugget_policy (linear_variogram 1 0) Euclidean [[0]; [1]] [0; 1])
    as [Hdiag [Hb [_ [_ [_ [_ [_ [Hon _]]]]]]]].
  - reflexivity.
  - split; [apply (Hdiag 0%nat); simpl; lia|].
    split; [apply (Hb 0%nat); [simpl; lia|reflexivity]|].
    apply (Hon 0%nat). simpl; lia.
Defined.





Lemma find_neighbors_lone :
  find_neighbors data_order no_brutal lone (atleast_2d [0]) 2 =
  inr ([[Finite 0; PosInf]], [[0%nat; 1%nat]]).
Proof.
  rewrite (find_neighbors_query1 lone lone_X 0 2 eq_refl eq_refl eq_refl eq_refl).
  change (Z.to_nat 2) with 2%nat. rewrite query_lone. reflexivity.
Qed.

(** The scenario of C10: one observation and two neighbours asked for;
    the second slot is the sentinel and does not pass the filter. *)
Lemma kdtree_sentinels_dropped_witness :
  nth 1 [Finite 0; PosInf] (Finite 0) = PosInf /\ nth 1 [0%nat; 1%nat] 0%nat = 1%nat /\
  Forall (fun i => (i < 1)%nat) (kept_idx PosInf [Finite 0; PosInf] [0%nat; 1%nat]) /\
  predict data_order no_brutal lone (query1 0) 2 PosInf false <> Raised IndexError.
Proof.
  destruct (KrigingFacts.kdtree_sentinels_dropped data_order no_brutal no_VAR_fit unfitted lone
              lone_X lone_y (query1 0) (atleast_2d [0]) 2 PosInf false
              [[Finite 0; PosInf]] [[0%nat; 1%nat]]) as [Hrows Hno].
  - exact fit_lone.
  - reflexivity.
  - reflexivity.
  - exact find_neighbors_lone.
  - destruct (Hrows 0%nat [Finite 0; PosInf] [0%nat; 1%nat] eq_refl eq_refl)
      as [_ [_ [Hs [_ [Hb _]]]]].
    split; [apply (Hs 1%nat); simpl; lia|].
    split; [apply (Hs 1%nat); simpl; lia|].
    split; [exact Hb|exact Hno].
Defined.

End ScenarioFacts.

(** ** The variogram models away from zero *)

Module DistributionMore.
Import Distribution.

Lemma fdiv_some (x y : R) : y <> 0 -> fdiv x y = Some (x / y).
Proof. intros H. unfold fdiv. destruct (Req_EM_T y 0); [contradiction|reflexivity]. Qed.

Lemma sq_pos (r : R) : r <> 0 -> 0 < (r * 4 / 7) ^ 2.
Proof. intros H. assert (r * 4 / 7 <> 0) by lra. simpl. nra. Qed.

(** The value of the exponential model. *)
Lemma exponential_value (psill range_ nugget d : R) :
  range_ <> 0 ->
  exponential [psill; range_; nugget] d =
  Some (psill * (1 - exp (- d / range_)) + nugget).
Proof. intros H. unfold exponential. simpl. rewrite fdiv_some by exact H. reflexivity. Qed.

Lemma exp_nonpos_le (x y : R) : x <= y -> y <= 0 -> exp x <= exp y /\ exp y <= 1 /\ 0 < exp x.
Proof.
  intros Hxy Hy. split; [|split].
  - destruct Hxy as [Hlt| ->]; [left; apply exp_increasing; exact Hlt|right; reflexivity].
  - rewrite <- exp_0. destruct Hy as [Hlt| ->]; [left; apply exp_increasing; exact Hlt|right; reflexivity].
  - apply exp_pos.
Qed.

(** X1: the exponential model rises from the nugget towards the sill. *)
Theorem exponential_rises (psill range_ nugget : R) :
  0 <= psill -> 0 < range_ ->
  rises_within (exponential [psill; range_; nugget]) nugget (psill + nugget).
Proof.
  intros Hp Hr d1 d2 [H1 H12].
  exists (psill * (1 - exp (- d1 / range_)) + nugget),
         (psill * (1 - exp (- d2 / range_)) + nugget).
  rewrite !exponential_value by lra. split; [reflexivity|]. split; [reflexivity|].
  assert (Hq1 : - d1 / range_ <= 0).
  { unfold Rdiv. assert (0 < / range_) by (apply Rinv_0_lt_compat; exact Hr). nra. }
  assert (Hq : - d2 / range_ <= - d1 / range_).
  { unfold Rdiv. assert (0 < / range_) by (apply Rinv_0_lt_compat; exact Hr). nra. }
  destruct (exp_nonpos_le _ _ Hq Hq1) as [E1 [E2 E3]].
  repeat split; nra.
Qed.

Lemma gaussian_value (psill range_ nugget d : R) :
  range_ <> 0 ->
  gaussian [psill; range_; nugget] d =
  Some (psill * (1 - exp (- d ^ 2 / (range_ * 4 / 7) ^ 2)) + nugget).
Proof.
  intros H. unfold gaussian. simpl param. cbn [bind].
  rewrite fdiv_some; [reflexivity|]. pose proof (sq_pos range_ H). lra.
Qed.

(** X2: the gaussian model rises from the nugget towards the sill. *)
Theorem gaussian_rises (psill range_ nugget : R) :
  0 <= psill -> range_ <> 0 ->
  rises_within (gaussian [psill; range_; nugget]) nugget (psill + nugget).
Proof.
  intros Hp Hr d1 d2 [H1 H12].
  exists (psill * (1 - exp (- d1 ^ 2 / (range_ * 4 / 7) ^ 2)) + nugget),
         (psill * (1 - exp (- d2 ^ 2 / (range_ * 4 / 7) ^ 2)) + nugget).
  rewrite !gaussian_value by exact Hr. split; [reflexivity|]. split; [reflexivity|].
  pose proof (sq_pos range_ Hr) as Hs.
  set (c := (range_ * 4 / 7) ^ 2) in *.
  assert (Hi : 0 < / c) by (apply Rinv_0_lt_compat; exact Hs).
  assert (Hq1 : - d1 ^ 2 / c <= 0) by (unfold Rdiv; simpl; nra).
  assert (Hq : - d2 ^ 2 / c <= - d1 ^ 2 / c).
  { unfold Rdiv. assert (d1 ^ 2 <= d2 ^ 2) by (simpl; nra). nra. }
  destruct (exp_nonpos_le _ _ Hq Hq1) as [E1 [E2 E3]].
  repeat split; nra.
Qed.


Lemma spherical_inside (psill range_ nugget : R) (d : scalar) :
  0 < range_ -> to_float d <= range_ ->
  spherical [psill; range_; nugget] d =
  Some (store_like d
          (psill * (3 * to_float d / (2 * range_) - to_float d ^ 3 / (2 * range_ ^ 3))
           + nugget)).
Proof.
  intros Hr Hd. unfold spherical. simpl param. cbn [bind]. cbv zeta.
  destruct (Rle_dec (to_float d) range_); [|contradiction].
  assert (0 < range_ ^ 3) by (apply pow_lt; exact Hr).
  rewrite !fdiv_some by lra. reflexivity.
Qed.

Lemma spherical_outside (psill range_ nugget : R) (d : scalar) :
  range_ < to_float d ->
  spherical [psill; range_; nugget] d = Some (store_like d (psill + nugget)).
Proof.
  intros Hd. unfold spherical. simpl param. cbn [bind]. cbv zeta.
  destruct (Rle_dec (to_float d) range_); [lra|reflexivity].
Qed.

(** The ramp of the spherical model, in the ratio [t = d / range]. *)
Lemma spherical_ramp (range_ d : R) :
  0 < range_ ->
  3 * d / (2 * range_) - d ^ 3 / (2 * range_ ^ 3) =
  (3 * (d / range_) - (d / range_) ^ 3) / 2.
Proof. intros Hr. field. lra. Qed.

Lemma ramp_bounds (t1 t2 : R) :
  0 <= t1 -> t1 <= t2 -> t2 <= 1 ->
  0 <= (3 * t1 - t1 ^ 3) / 2 /\
  (3 * t1 - t1 ^ 3) / 2 <= (3 * t2 - t2 ^ 3) / 2 /\
  (3 * t2 - t2 ^ 3) / 2 <= 1.
Proof.
  intros H1 H12 H2. simpl. split; [|split].
  - assert (t1 * t1 <= 1) by nra. nra.
  - assert (0 <= (t2 - t1) * (3 - (t1 * t1 + t1 * t2 + t2 * t2))).
    { apply Rmult_le_pos; [lra|]. assert (t1 * t1 <= 1) by nra.
      assert (t2 * t2 <= 1) by nra. assert (t1 * t2 <= 1) by nra. lra. }
    nra.
  - assert (0 <= (1 - t2) * (1 - t2) * (t2 + 2)).
    { apply Rmult_le_pos; [nra|lra]. }
    nra.
Qed.

(** X4: at the range and beyond it the spherical model is on its sill:
    it returns [psill + nugget] in the dtype of the distance, hence cut
    down to an integer for an integer distance. *)
Theorem spherical_sill (psill range_ nugget : R) (d : scalar) :
  0 < range_ -> range_ <= to_float d ->
  spherical [psill; range_; nugget] d = Some (store_like d (psill + nugget)).
Proof.
  intros Hr [Hd|Hd].
  - apply spherical_outside. exact Hd.
  - rewrite spherical_inside by lra. f_equal. f_equal.
    rewrite spherical_ramp by exact Hr. rewrite <- Hd.
    replace (range_ / range_) with 1 by (field; lra). simpl. lra.
Qed.

(** The value of the spherical model before it is stored. *)
Lemma spherical_value (psill range_ nugget : R) :
  0 <= psill -> 0 < range_ ->
  forall d1 d2 : scalar, 0 <= to_float d1 <= to_float d2 ->
    exists v1 v2,
      spherical [psill; range_; nugget] d1 = Some (store_like d1 v1) /\
      spherical [psill; range_; nugget] d2 = Some (store_like d2 v2) /\
      nugget <= v1 /\ v1 <= v2 /\ v2 <= psill + nugget.
Proof.
  intros Hp Hr d1 d2 [H1 H12].
  assert (Hi : 0 < / range_) by (apply Rinv_0_lt_compat; exact Hr).
  set (x1 := to_float d1) in *. set (x2 := to_float d2) in *.
  destruct (Rle_dec x2 range_) as [H2|H2].
  - exists (psill * (3 * x1 / (2 * range_) - x1 ^ 3 / (2 * range_ ^ 3)) + nugget),
           (psill * (3 * x2 / (2 * range_) - x2 ^ 3 / (2 * range_ ^ 3)) + nugget).
    rewrite !spherical_inside by (fold x1 x2; lra).
    split; [reflexivity|]. split; [reflexivity|].
    rewrite !spherical_ramp by exact Hr.
    destruct (ramp_bounds (x1 / range_) (x2 / range_)) as [B1 [B2 B3]].
    + unfold Rdiv. nra.
    + unfold Rdiv. nra.
    + unfold Rdiv. assert (x2 * / range_ <= range_ * / range_) by nra.
      rewrite Rinv_r in H by lra. exact H.
    + repeat split; nra.
  - destruct (Rle_dec x1 range_) as [H1'|H1'].
    + exists (psill * (3 * x1 / (2 * range_) - x1 ^ 3 / (2 * range_ ^ 3)) + nugget),
             (psill + nugget).
      rewrite spherical_inside, spherical_outside by (fold x1 x2; lra).
      split; [reflexivity|]. split; [reflexivity|].
      rewrite spherical_ramp by exact Hr.
      destruct (ramp_bounds (x1 / range_) (x1 / range_)) as [B1 [B2 B3]].
      * unfold Rdiv. nra.
      * lra.
      * unfold Rdiv. assert (x1 * / range_ <= range_ * / range_) by nra.
        rewrite Rinv_r in H by lra. exact H.
      * repeat split; nra.
    + exists (psill + nugget), (psill + nugget).
      rewrite !spherical_outside by (fold x1 x2; lra). repeat split; lra.
Qed.

Lemma Int_part_mono (a b : R) : a <= b -> (Int_part a <= Int_part b)%Z.
Proof.
  intros H. destruct (base_Int_part a) as [Ha _]. destruct (base_Int_part b) as [_ Hb].
  assert (L : IZR (Int_part a) < IZR (Int_part b + 1)) by (rewrite plus_IZR; lra).
  apply lt_IZR in L. lia.
Qed.

Lemma Int_part_0 : Int_part 0 = 0%Z.
Proof. symmetry. apply Int_part_spec. simpl. lra. Qed.

(** The cast to an integer dtype keeps the order. *)
Lemma trunc_mono (a b : R) : a <= b -> (trunc a <= trunc b)%Z.
Proof.
  intros H. unfold trunc.
  destruct (Rle_dec 0 a) as [Ha|Ha], (Rle_dec 0 b) as [Hb|Hb]; try lra.
  - apply Int_part_mono. exact H.
  - assert (L : (Int_part 0 <= Int_part (- a))%Z) by (apply Int_part_mono; lra).
    assert (L' : (Int_part 0 <= Int_part b)%Z) by (apply Int_part_mono; lra).
    rewrite Int_part_0 in L, L'. lia.
  - assert (L : (Int_part (- b) <= Int_part (- a))%Z) by (apply Int_part_mono; lra).
    lia.
Qed.

(** X3: the spherical model rises from the nugget to the sill on the
    distances of float dtype; on integer distances it returns these
    values cast to integers, which still rise, from the cast of the
    nugget to the cast of the sill. *)
Theorem spherical_rises (psill range_ nugget : R) :
  0 <= psill -> 0 < range_ ->
  rises_within (at_floats (spherical [psill; range_; nugget])) nugget (psill + nugget) /\
  forall z1 z2, (0 <= z1 <= z2)%Z ->
    exists v1 v2,
      spherical [psill; range_; nugget] (Int64 z1) = Some (Int64 v1) /\
      spherical [psill; range_; nugget] (Int64 z2) = Some (Int64 v2) /\
      (trunc nugget <= v1)%Z /\ (v1 <= v2)%Z /\ (v2 <= trunc (psill + nugget))%Z.
Proof.
  intros Hp Hr. split.
  - intros d1 d2 H.
    destruct (spherical_value psill range_ nugget Hp Hr (Float64 d1) (Float64 d2) H)
      as [v1 [v2 [E1 [E2 B]]]].
    exists v1, v2. unfold at_floats. rewrite E1, E2. simpl. auto.
  - intros z1 z2 [H1 H2].
    assert (H : 0 <= to_float (Int64 z1) <= to_float (Int64 z2)).
    { simpl. split; [apply (IZR_le 0); exact H1|apply IZR_le; exact H2]. }
    destruct (spherical_value psill range_ nugget Hp Hr (Int64 z1) (Int64 z2) H)
      as [v1 [v2 [E1 [E2 [B1 [B2 B3]]]]]].
    exists (trunc v1), (trunc v2). rewrite E1, E2. simpl.
    repeat split; try reflexivity; apply trunc_mono; assumption.
Qed.


Lemma hole_effect_value (psill range_ nugget d : R) :
  range_ <> 0 ->
  hole_effect [psill; range_; nugget] d =
  Some (psill * (1 - (1 - d / (range_ / 3)) * exp (- d / (range_ / 3))) + nugget).
Proof.
  intros H. unfold hole_effect. simpl param. cbn [bind].
  rewrite !fdiv_some by lra. reflexivity.
Qed.

(** X5: the hole-effect model crosses its sill at a third of the range
    and lies above it from there on. *)
Theorem hole_effect_overshoots (psill range_ nugget d : R) :
  0 < psill -> 0 < range_ -> range_ / 3 <= d ->
  exists v, hole_effect [psill; range_; nugget] d = Some v /\
            psill + nugget <= v /\
            (d = range_ / 3 -> v = psill + nugget) /\
            (range_ / 3 < d -> psill + nugget < v).
Proof.
  intros Hp Hr Hd. rewrite hole_effect_value by lra.
  eexists. split; [reflexivity|].
  set (q := d / (range_ / 3)).
  assert (Hqd : q * (range_ / 3) = d) by (unfold q; field; lra).
  assert (Hq : 1 <= q) by (apply (Rmult_le_reg_r (range_ / 3)); lra).
  assert (He : 0 < exp (- d / (range_ / 3))) by apply exp_pos.
  set (e := exp (- d / (range_ / 3))) in *.
  assert (Hqe : 0 <= (q - 1) * e) by (apply Rmult_le_pos; lra).
  split; [nra|]. split.
  - intros E. assert (q = 1) by (apply (Rmult_eq_reg_r (range_ / 3)); lra).
    subst q. rewrite H. lra.
  - intros E. assert (1 < q) by (apply (Rmult_lt_reg_r (range_ / 3)); lra).
    assert (0 < (q - 1) * e) by (apply Rmult_lt_0_compat; lra).
    nra.
Qed.

Lemma cos_1_pos : 0 < cos 1.
Proof.
  pose proof PI2_1. apply cos_gt_0; lra.
Qed.

(** X6: the circular model, as it is written, jumps at the range: its
    value there is below the sill, and right after it is the sill; each
    is returned in the dtype of the distance, hence cut down to an
    integer for an integer distance. *)
Theorem circular_jump (psill range_ nugget : R) :
  0 < psill -> 0 < range_ ->
  (forall d, to_float d = range_ ->
     exists v, circular [psill; range_; nugget] d = Some (store_like d v) /\
               v < psill + nugget) /\
  (forall d, range_ < to_float d ->
     circular [psill; range_; nugget] d = Some (store_like d (psill + nugget))).
Proof.
  intros Hp Hr. split.
  - intros d Hd. unfold circular. simpl param. cbn [bind]. cbv zeta. rewrite Hd.
    destruct (Rle_dec range_ range_); [|lra].
    rewrite fdiv_some by lra. cbn [bind].
    replace (range_ / range_) with 1 by (field; lra).
    pose proof cos_1_pos as Hc.
    rewrite fdiv_some by lra. cbn [bind].
    unfold fsqrt. replace (1 - 1 ^ 2) with 0 by (simpl; ring).
    destruct (Rlt_dec 0 0); [lra|]. cbn [bind]. rewrite sqrt_0.
    eexists. split; [reflexivity|].
    assert (0 < 2 / PI / cos 1).
    { apply Rdiv_lt_0_compat; [|exact Hc].
      apply Rdiv_lt_0_compat; [lra|apply PI_RGT_0]. }
    nra.
  - intros d Hd. unfold circular. simpl param. cbn [bind]. cbv zeta.
    destruct (Rle_dec (to_float d) range_); [lra|reflexivity].
Qed.

Lemma Int_part_1 : Int_part 1 = 1%Z.
Proof. symmetry. apply Int_part_spec. simpl. lra. Qed.

Lemma frac_part_1 : frac_part 1 = 0.
Proof. unfold frac_part. rewrite Int_part_1. simpl. lra. Qed.

(** X7: the power model with exponent one is the linear model. *)
Theorem power_one_is_linear (scale nugget d : R) :
  power [scale; 1; nugget] d = linear [scale; nugget] d.
Proof.
  unfold power, linear, fpow. simpl param. cbn [bind].
  destruct (Rlt_dec 0 d) as [Hd|Hd].
  - cbn [bind]. rewrite Rpower_1 by exact Hd. reflexivity.
  - destruct (Req_EM_T d 0) as [->|Hd0].
    + destruct (Req_EM_T 1 0); [lra|]. destruct (Rlt_dec 0 1); [|lra].
      reflexivity.
    + rewrite frac_part_1. destruct (Req_EM_T 0 0); [|lra].
      rewrite Int_part_1. simpl Z.even. cbn [bind].
      rewrite Rpower_1 by lra. f_equal. ring.
Qed.

(** X8: a model reads the first [arity] entries of [m] and nothing else:
    it has no value on a shorter vector, and entries past them do not
    change its value. *)
Theorem parameters_read (name : string) (f : model) (m : list R) (d : scalar) :
  In (name, f) distributions ->
  ((length m < arity name)%nat -> f m d = None) /\
  f m d = f (firstn (arity name) m) d.
Proof.
  intros Hin. simpl in Hin.
  repeat (destruct Hin as [Hin|Hin]; [injection Hin as <- <-; unfold arity; simpl|]);
    try contradiction;
    (split;
     [intros Hl; destruct m as [|a [|b [|c m]]]; simpl in Hl; try lia; reflexivity
     |destruct m as [|a [|b [|c m]]]; reflexivity]).
Qed.

Lemma parameters_read_witness :
  on_float Distribution.gaussian [2; 3] (Float64 1) = None.
Proof.
  destruct (parameters_read "gaussian" (on_float gaussian) [2; 3] (Float64 1)) as [H _].
  - simpl; auto 10.
  - apply H. unfold arity; simpl; lia.
Defined.

End DistributionMore.

(** ** More on the predictor *)

Module KrigingMore.
Import Linalg Kriging ListFacts LinalgFacts SystemFacts LoopFacts KDTreeFacts
       KrigingFacts.

(** X9: the matrix of every query point is symmetric. *)
Theorem matrix_symmetric (gamma : R -> R) (useNugget : bool) (mt : metric)
    (pts : list (list R)) (nd : list R) (i j : nat) :
  let n := length pts in
  let a := fst (kriging_system gamma useNugget mt n pts nd) in
  (i <= n)%nat -> (j <= n)%nat ->
  nth j (nth i a []) 0 = nth i (nth j a []) 0.
Proof.
  intros n a Hi Hj. unfold a, kriging_system; cbn [fst].
  rewrite !nth_tabulate2 by lia.
  assert (Hon : matrix_a gamma true n (cdist pts pts mt) i j =
                matrix_a gamma true n (cdist pts pts mt) j i).
  { rewrite !matrix_a_on.
    destruct (Nat.eqb_spec i n) as [Ei|Ei]; destruct (Nat.eqb_spec j n) as [Ej|Ej];
      simpl; try reflexivity.
    assert (Hi' : (i < n)%nat) by lia. assert (Hj' : (j < n)%nat) by lia.
    apply Nat.ltb_lt in Hi' as Bi. apply Nat.ltb_lt in Hj' as Bj.
    rewrite Bi, Bj. simpl.
    rewrite !MetricFacts.cdist_nth by assumption.
    rewrite MetricFacts.metric_dist_sym. reflexivity. }
  destruct useNugget; [exact Hon|].
  rewrite !matrix_a_off, Hon, (Nat.eqb_sym j i). reflexivity.
Qed.

(** With a variogram that vanishes at zero the two nugget policies build
    the same system. *)
Lemma system_without_nugget (gamma : R -> R) (mt : metric) (n : nat)
    (pts : list (list R)) (nd : list R) :
  gamma 0 = 0 -> length pts = n -> length nd = n ->
  kriging_system gamma true mt n pts nd = kriging_system gamma false mt n pts nd.
Proof.
  intros Hg Hp Hd. unfold kriging_system. f_equal.
  - unfold tabulate2. apply map_ext_in. intros i Hi. apply map_ext_in. intros j Hj.
    apply in_seq in Hi. apply in_seq in Hj.
    rewrite matrix_a_off. destruct (Nat.eqb_spec i j) as [->|]; [|reflexivity].
    rewrite matrix_a_on. destruct (Nat.eqb_spec j n) as [|Hn]; simpl; [reflexivity|].
    assert (Hj' : (j < n)%nat) by lia. apply Nat.ltb_lt in Hj' as Bj. rewrite Bj. simpl.
    rewrite MetricFacts.cdist_nth, MetricFacts.metric_dist_self by lia. exact Hg.
  - unfold tabulate. apply map_ext_in. intros i Hi.
    rewrite vector_b_on, vector_b_off by exact Hd.
    destruct (i <? n)%nat; [|reflexivity].
    destruct (Req_EM_T (nth i nd 0) 0) as [E|]; [|reflexivity].
    rewrite E. exact Hg.
Qed.

Lemma krige_point_without_nugget (self : kriging_ordinary) (b : bool) (gamma : R -> R)
    (radius : ereal) (nd : list ereal) (ni : list nat) :
  _variogram self = Some gamma -> gamma 0 = 0 ->
  krige_point (update_useNugget self b) radius nd ni = krige_point self radius nd ni.
Proof.
  intros Hv Hg. unfold krige_point.
  destruct (Nat.eqb_spec (length nd) (length ni)) as [Hlen|]; [|reflexivity].
  simpl negb. cbv iota.
  destruct (length (kept_idx radius nd ni) =? 0)%nat; [reflexivity|].
  assert (Hw : point_weights (update_useNugget self b) (kept_idx radius nd ni)
                 (map finite_value (kept_dst radius nd)) =
               point_weights self (kept_idx radius nd ni)
                 (map finite_value (kept_dst radius nd))).
  { unfold point_weights. cbn [update_useNugget self_X _variogram _useNugget distance_type].
    destruct (self_X self) as [data|]; [|reflexivity].
    destruct (take (rows data) (kept_idx radius nd ni)) as [pts|] eqn:Hp; [|reflexivity].
    rewrite Hv.
    assert (Hlp : length pts = length (kept_idx radius nd ni))
      by (apply (take_length _ _ _ Hp)).
    assert (Hld : length (map finite_value (kept_dst radius nd)) =
                  length (kept_idx radius nd ni))
      by (rewrite length_map; symmetry; apply kept_length; exact Hlen).
    pose proof (system_without_nugget gamma (distance_type self) _ pts _ Hg Hlp Hld) as E.
    destruct b, (_useNugget self); rewrite ?E; reflexivity. }
  rewrite Hw. reflexivity.
Qed.


(** What a solved system of one query point consists of. *)
Lemma point_weights_inr (self : kriging_ordinary) (ni : list nat) (nd w b : list R) :
  point_weights self ni nd = inr (w, b) ->
  exists data pts gamma,
    self_X self = Some data /\ take (rows data) ni = Some pts /\
    _variogram self = Some gamma /\
    Linalg.solve
      (fst (kriging_system gamma (_useNugget self) (distance_type self) (length ni) pts nd))
      (snd (kriging_system gamma (_useNugget self) (distance_type self) (length ni) pts nd))
      = Some w /\
    b = snd (kriging_system gamma (_useNugget self) (distance_type self) (length ni) pts nd).
Proof.
  unfold point_weights. intros H.
  destruct (self_X self) as [data|]; [|discriminate].
  destruct (take (rows data) ni) as [pts|] eqn:Hp; [|discriminate].
  destruct (_variogram self) as [gamma|]; [|discriminate].
  destruct (Linalg.solve _ _) as [w'|] eqn:Hs; [|discriminate].
  injection H as -> <-. exists data, pts, gamma. repeat split; auto.
Qed.

(** The weights do not depend on the values. *)
Lemma point_weights_values (self self' : kriging_ordinary) (ni : list nat) (nd : list R) :
  self_X self' = self_X self -> _variogram self' = _variogram self ->
  _useNugget self' = _useNugget self -> distance_type self' = distance_type self ->
  point_weights self' ni nd = point_weights self ni nd.
Proof.
  intros HX Hv Hu Hd. unfold point_weights. rewrite HX, Hv, Hu, Hd. reflexivity.
Qed.

Lemma take_map {A B : Type} (f : A -> B) (l : list A) : forall idx,
  take (map f l) idx = option_map (map f) (take l idx).
Proof.
  induction idx as [|i idx IH]; [reflexivity|]. simpl.
  rewrite nth_error_map. destruct (nth_error l i); [|reflexivity]. simpl.
  rewrite IH. destruct (take l idx); reflexivity.
Qed.

Lemma take_constant (y : list R) (v : R) : forall idx ys,
  take y idx = Some ys -> (forall i, In i idx -> nth i y 0 = v) ->
  ys = repeat v (length idx).
Proof.
  induction idx as [|i idx IH]; intros ys H Hv; simpl in H.
  - injection H as <-. reflexivity.
  - destruct (nth_error y i) as [a|] eqn:Ea; [|discriminate]. simpl in H.
    destruct (take y idx) as [r|] eqn:Er; [|discriminate]. simpl in H.
    injection H as <-. simpl. f_equal.
    + rewrite <- (Hv i (or_introl eq_refl)). symmetry.
      apply nth_error_nth. exact Ea.
    + apply IH; [reflexivity|]. intros j Hj. apply Hv. right. exact Hj.
Qed.

Lemma dot_affine (a c : R) : forall u ys,
  length u = length ys ->
  dot u (map (fun v => a * v + c) ys) = a * dot u ys + c * sum u.
Proof.
  induction u as [|x u IH]; intros [|y ys] H; simpl in *; try lia; try lra.
  rewrite IH by lia. unfold sum. simpl. ring.
Qed.

Lemma dot_repeat (v : R) : forall u, dot u (repeat v (length u)) = v * sum u.
Proof.
  induction u as [|x u IH]; simpl; [unfold sum; simpl; lra|].
  rewrite IH. unfold sum. simpl. ring.
Qed.

(** The weights of a completed iteration: as many as kept neighbours
    and a multiplier, the former adding up to one. *)
Lemma fill_weights (self : kriging_ordinary) (radius : ereal)
    (nd : list ereal) (ni : list nat) (w b : list R) :
  length nd = length ni ->
  point_weights self (kept_idx radius nd ni)
                (map finite_value (kept_dst radius nd)) = inr (w, b) ->
  length (firstn (length (kept_idx radius nd ni)) w) = length (kept_idx radius nd ni) /\
  sum (firstn (length (kept_idx radius nd ni)) w) = 1.
Proof.
  intros Hlen H. apply point_weights_inr in H.
  destruct H as [data [pts [gamma [_ [_ [_ [Hs _]]]]]]].
  split.
  - unfold kriging_system in Hs; cbn [fst snd] in Hs.
    destruct (tabulate2_square (S (length (kept_idx radius nd ni)))
                (matrix_a gamma (_useNugget self) (length (kept_idx radius nd ni))
                   (cdist pts pts (distance_type self)))) as [Hl Hsq].
    apply solve_Some in Hs; [|exact Hsq|rewrite Hl; apply tabulate_length].
    destruct Hs as [Hw _]. rewrite Hl in Hw. rewrite length_firstn. lia.
  - apply weights_sum in Hs; [exact Hs|].
    rewrite length_map. symmetry. apply kept_length. exact Hlen.
Qed.

(** X14: where every neighbour that is kept has the value [v], the
    prediction is [v]. *)
Theorem constant_field (self : kriging_ordinary) (radius : ereal)
    (nd : list ereal) (ni : list nat) (y : list R) (v r e : R) :
  self_y self = Some y ->
  (forall i, In i (kept_idx radius nd ni) -> nth i y 0 = v) ->
  krige_point self radius nd ni = Fill r e ->
  r = v.
Proof.
  intros Hy Hv H. apply krige_point_fill in H.
  destruct H as [Hlen [_ [w [b [y' [ys [Hw [Hy' [Hys [-> _]]]]]]]]]].
  rewrite Hy in Hy'. injection Hy' as <-.
  destruct (fill_weights self radius nd ni w b Hlen Hw) as [Hl Hsum].
  rewrite (take_constant y v _ ys Hys Hv).
  set (u := firstn _ w) in *. rewrite <- Hl, dot_repeat, Hsum. lra.
Qed.

(** X15: the prediction follows an affine change of the values, and the
    error does not change: for two predictors that differ only by the
    values [y] and [a * y + c], a point predicted as [r] with error [e]
    by the first is predicted as [a * r + c] with error [e] by the
    second. *)
Theorem affine_values (self self' : kriging_ordinary) (a c : R) (y : list R)
    (radius : ereal) (nd : list ereal) (ni : list nat) (r e : R) :
  self_X self' = self_X self -> _variogram self' = _variogram self ->
  _useNugget self' = _useNugget self -> distance_type self' = distance_type self ->
  self_y self = Some y -> self_y self' = Some (map (fun v => a * v + c) y) ->
  krige_point self radius nd ni = Fill r e ->
  krige_point self' radius nd ni = Fill (a * r + c) e.
Proof.
  intros HX Hv Hu Hd Hy Hy' H. apply krige_point_fill in H.
  destruct H as [Hlen [Hne [w [b [y0 [ys [Hw [Hy0 [Hys [-> ->]]]]]]]]]].
  rewrite Hy in Hy0. injection Hy0 as <-.
  destruct (fill_weights self radius nd ni w b Hlen Hw) as [Hl Hsum].
  unfold krige_point. rewrite Hlen, Nat.eqb_refl. simpl negb. cbv iota.
  destruct (length (kept_idx radius nd ni) =? 0)%nat eqn:E.
  - apply Nat.eqb_eq in E. apply length_zero_iff_nil in E. contradiction.
  - rewrite (point_weights_values self self' _ _ HX Hv Hu Hd), Hw, Hy'.
    rewrite take_map, Hys. simpl option_map. cbv iota. f_equal.
    rewrite dot_affine, Hsum; [lra|].
    rewrite Hl. symmetry. apply (take_length _ _ _ Hys).
Qed.

(** The system of a single neighbour is never singular. *)
Lemma single_system_solved (a00 b0 : R) :
  Linalg.solve [[a00; 1]; [1; 0]] [b0; 1] = Some [1; b0 - a00].
Proof.
  assert (Hsq : is_square [[a00; 1]; [1; 0]]).
  { intros row [<-|[<-|[]]]; reflexivity. }
  destruct (Linalg.solve [[a00; 1]; [1; 0]] [b0; 1]) as [w|] eqn:Hs.
  - apply solve_Some in Hs; [|exact Hsq|reflexivity].
    destruct Hs as [_ [_ Hu]]. f_equal. symmetry. apply Hu; [reflexivity|].
    unfold mat_vec. simpl. f_equal; [ring|]. f_equal. ring.
  - exfalso.
    apply solve_None_iff in Hs; [|exact Hsq|reflexivity].
    destruct Hs as [v [Hl [Hne Hk]]]. apply Hne.
    destruct v as [|v0 [|v1 [|]]]; try discriminate.
    unfold mat_vec in Hk. simpl in Hk. injection Hk as H0 H1.
    assert (E : v0 = 0) by lra. subst v0.
    simpl. f_equal. f_equal. lra.
Qed.

(** The iteration of a query point with a single neighbour, at the
    location [pt] and the distance [d]. *)
Lemma krige_point_single (self : kriging_ordinary) (radius : ereal)
    (nd : list ereal) (ni : list nat) (data : array2) (gamma : R -> R)
    (y : list R) (i : nat) (v d : R) (pt : list R) :
  self_X self = Some data -> _variogram self = Some gamma -> self_y self = Some y ->
  length nd = length ni -> kept_idx radius nd ni = [i] ->
  map finite_value (kept_dst radius nd) = [d] ->
  nth_error (rows data) i = Some pt -> nth_error y i = Some v ->
  exists e, krige_point self radius nd ni = Fill v e.
Proof.
  intros HX Hg Hy Hlen Hk Hd Hpt Hv.
  unfold krige_point. rewrite Hlen, Nat.eqb_refl. simpl negb. cbv iota.
  rewrite Hk, Hd. simpl length. simpl Nat.eqb. cbv iota.
  unfold point_weights. rewrite HX, Hg. simpl take. rewrite Hpt. simpl bind. cbv iota.
  unfold kriging_system, tabulate2, tabulate. simpl length. cbn [fst snd seq map].
  assert (Ha : matrix_a gamma (_useNugget self) 1
                 (cdist [pt] [pt] (distance_type self)) 0 1 = 1 /\
               matrix_a gamma (_useNugget self) 1
                 (cdist [pt] [pt] (distance_type self)) 1 0 = 1 /\
               matrix_a gamma (_useNugget self) 1
                 (cdist [pt] [pt] (distance_type self)) 1 1 = 0).
  { destruct (_useNugget self); rewrite ?matrix_a_off, ?matrix_a_on; simpl; auto. }
  destruct Ha as [-> [-> ->]].
  assert (Hb : vector_b gamma (_useNugget self) 1 [d] 1 = 1).
  { destruct (_useNugget self); [rewrite vector_b_on|rewrite vector_b_off by reflexivity];
      reflexivity. }
  rewrite Hb, single_system_solved, Hy. simpl take. rewrite Hv. simpl bind.
  eexists. f_equal. simpl. lra.
Qed.

(** One distance is kept with one index. *)
Lemma kept_single (radius : ereal) (nd : list ereal) (ni : list nat) (i : nat) :
  length nd = length ni -> kept_idx radius nd ni = [i] ->
  exists d, map finite_value (kept_dst radius nd) = [d].
Proof.
  intros Hlen Hk.
  pose proof (kept_length radius nd ni Hlen) as Hl. rewrite Hk in Hl.
  destruct (kept_dst radius nd) as [|d [|]]; try discriminate.
  exists (finite_value d). reflexivity.
Qed.

(** X16: a query point with a single neighbour left takes that
    neighbour's value, under either nugget policy and whatever the
    variogram: the system of one neighbour is always solved. *)
Theorem single_neighbour (self : kriging_ordinary) (radius : ereal)
    (nd : list ereal) (ni : list nat) (data : array2) (gamma : R -> R)
    (y : list R) (i : nat) (v : R) :
  self_X self = Some data -> _variogram self = Some gamma -> self_y self = Some y ->
  length nd = length ni -> kept_idx radius nd ni = [i] ->
  (i < length (rows data))%nat -> nth_error y i = Some v ->
  exists e, krige_point self radius nd ni = Fill v e.
Proof.
  intros HX Hg Hy Hlen Hk Hi Hv.
  destruct (kept_single radius nd ni i Hlen Hk) as [d Hd].
  destruct (nth_error (rows data) i) as [pt|] eqn:Hpt.
  - apply (krige_point_single self radius nd ni data gamma y i v d pt); assumption.
  - apply nth_error_None in Hpt. lia.
Qed.

Section Collaborators.

Variable tie : KDTree.tie_order.
Variable get_neighors_brutal :
  metric -> ndarray -> array2 -> Z -> exn + (list (list ereal) * list (list nat)).
Variable VAR_fit : array2 -> list R -> (R -> R).

Local Abbreviation predict := (Kriging.predict tie get_neighors_brutal).
Local Abbreviation predict_arrays := (Kriging.predict_arrays tie get_neighors_brutal).
Local Abbreviation find_neighbors := (Kriging.find_neighbors tie get_neighors_brutal).
Local Abbreviation fit := (Kriging.fit VAR_fit).
Local Abbreviation update_fit := (Kriging.update_fit VAR_fit).

Lemma loop_without_nugget (self : kriging_ordinary) (b : bool) (gamma : R -> R)
    (radius : ereal) :
  _variogram self = Some gamma -> gamma 0 = 0 ->
  forall items results errors,
    loop (update_useNugget self b) radius items results errors =
    loop self radius items results errors.
Proof.
  intros Hv Hg. induction items as [|[[nd ni] i] items IH]; intros results errors.
  - reflexivity.
  - simpl. rewrite (krige_point_without_nugget self b gamma radius nd ni Hv Hg).
    destruct (krige_point self radius nd ni); auto.
Qed.

(** X10: under a variogram that vanishes at distance zero the nugget
    option changes nothing: [predict] answers the same after
    [update_useNugget]. *)
Theorem useNugget_without_nugget (self : kriging_ordinary) (b : bool) (gamma : R -> R)
    (x : ndarray) (n_neighbor : Z) (radius : ereal) (get_error : bool) :
  _variogram self = Some gamma -> gamma 0 = 0 ->
  predict (update_useNugget self b) x n_neighbor radius get_error =
  predict self x n_neighbor radius get_error.
Proof.
  intros Hv Hg. unfold Kriging.predict, Kriging.predict_arrays.
  cbn [update_useNugget n_features].
  destruct (validate (n_features self) x n_neighbor radius) as [r|x']; [reflexivity|].
  change (Kriging.find_neighbors tie get_neighors_brutal (update_useNugget self b) x' n_neighbor)
    with (find_neighbors self x' n_neighbor).
  destruct (find_neighbors self x' n_neighbor) as [e|[DST IDX]]; [reflexivity|].
  rewrite (loop_without_nugget self b gamma radius Hv Hg). reflexivity.
Qed.

(** X11: the arrays that [predict] returns have one entry for each point of
    the batch that passed the checks. *)
Theorem one_entry_per_point (self : kriging_ordinary) (x : ndarray)
    (n_neighbor : Z) (radius : ereal) (results errors : list R) :
  predict_arrays self x n_neighbor radius = inr (inr (results, errors)) ->
  exists x', validate (n_features self) x n_neighbor radius = inr x' /\
             length results = length (points x') /\
             length errors = length (points x').
Proof.
  intros H. unfold Kriging.predict_arrays in H.
  destruct (validate (n_features self) x n_neighbor radius) as [r|x'] eqn:Hv;
    [discriminate|].
  exists x'. split; [reflexivity|].
  destruct (find_neighbors self x' n_neighbor) as [e|[DST IDX]]; [discriminate|].
  injection H as H. apply loop_inr in H; try (rewrite repeat_length; simpl; lia).
  destruct H as [[H1 H2] _]. rewrite repeat_length in H1, H2.
  assert (E : length (points x') = len x')
    by (destruct x'; simpl; [apply length_map|reflexivity]).
  rewrite E. split; assumption.
Qed.

(** The checks on a two-dimensional batch. *)
Lemma validate_Arr2 (F : nat) (a : array2) (n_neighbor : Z) (radius : ereal)
    (x' : ndarray) :
  validate F (Arr2 a) n_neighbor radius = inr x' ->
  x' = Arr2 a /\
  forall rws, validate F (Arr2 {| ncols := ncols a; rows := rws |}) n_neighbor radius =
              inr (Arr2 {| ncols := ncols a; rows := rws |}).
Proof.
  unfold validate, check_features. simpl ncols.
  destruct (negb (ncols a =? F)%nat); [discriminate|].
  destruct (n_neighbor <=? 0)%Z; [discriminate|].
  destruct (ereal_nonpos radius); [discriminate|].
  intros H. injection H as <-. split; reflexivity.
Qed.

(** The tree that [predict] queries, and the norm it asks for. *)
Lemma find_neighbors_query (self : kriging_ordinary) (data : array2) (x : ndarray)
    (n_neighbor : Z) :
  _algorithm self = Kdtree -> self_X self = Some data ->
  find_neighbors self x n_neighbor =
  KDTree.query tie data x (Z.to_nat n_neighbor)
    match distance_type self with Cityblock => KDTree.P1 | Euclidean => KDTree.P2 end.
Proof.
  intros Ha HX. unfold Kriging.find_neighbors. rewrite HX, Ha.
  destruct (distance_type self); reflexivity.
Qed.

(** X12: with the kdtree algorithm a point is predicted alike in a batch
    and alone: the entries of the arrays at its position are what
    [predict] returns for the batch of that single point. *)
Theorem batch_pointwise (self : kriging_ordinary) (data a : array2)
    (n_neighbor : Z) (radius : ereal) (results errors : list R)
    (t : nat) (q : list R) :
  _algorithm self = Kdtree -> self_X self = Some data ->
  predict_arrays self (Arr2 a) n_neighbor radius = inr (inr (results, errors)) ->
  nth_error (rows a) t = Some q ->
  predict_arrays self (Arr2 {| ncols := ncols a; rows := [q] |}) n_neighbor radius =
  inr (inr ([nth t results 0], [nth t errors 0])).
Proof.
  intros Ha HX H Hq.
  assert (Ht : (t < length (rows a))%nat)
    by (apply nth_error_Some; rewrite Hq; discriminate).
  unfold Kriging.predict_arrays in *.
  destruct (validate (n_features self) (Arr2 a) n_neighbor radius) as [r|x'] eqn:Hv;
    [discriminate|].
  destruct (validate_Arr2 _ _ _ _ _ Hv) as [-> Hv1]. rewrite (Hv1 [q]).
  rewrite (find_neighbors_query self data _ n_neighbor Ha HX) in H.
  rewrite (find_neighbors_query self data _ n_neighbor Ha HX).
  set (p := match distance_type self with
            | Cityblock => KDTree.P1 | Euclidean => KDTree.P2 end) in *.
  unfold KDTree.query in *. simpl ncols. cbn [rows map] in *.
  destruct (ncols a =? ncols data)%nat; [|discriminate].
  injection H as H. simpl len in *.
  apply loop_inr in H; try (rewrite repeat_length; simpl; lia).
  destruct H as [_ [_ Hrow]].
  set (k := Z.to_nat n_neighbor) in *.
  specialize (Hrow t (fst (KDTree.query_point tie (rows data) q k p))
                     (snd (KDTree.query_point tie (rows data) q k p))).
  assert (Hn : nth_error
                 (combine (map fst (map (fun q0 => KDTree.query_point tie (rows data) q0 k p) (rows a)))
                          (map snd (map (fun q0 => KDTree.query_point tie (rows data) q0 k p) (rows a))))
                 t = Some (fst (KDTree.query_point tie (rows data) q k p),
                           snd (KDTree.query_point tie (rows data) q k p))).
  { apply nth_error_combine; rewrite map_map, nth_error_map, Hq; reflexivity. }
  specialize (Hrow Hn Ht). simpl Nat.add in Hrow. rewrite !nth_repeat in Hrow.
  unfold row_outcome in Hrow. cbn [combine seq loop repeat].
  destruct (krige_point self radius _ _) as [|r e|ex].
  - destruct Hrow as [-> ->]. reflexivity.
  - destruct Hrow as [-> ->]. reflexivity.
  - contradiction.
Qed.


(** X17: a second [fit] replaces the data and keeps the variogram: the
    one that was given, or the one the first [fit] created from its own
    data. *)
Theorem refit_keeps_variogram (self0 s1 s2 : kriging_ordinary) (X1 X2 : array2)
    (y1 y2 : list R) :
  fit self0 X1 y1 = inr s1 -> fit s1 X2 y2 = inr s2 ->
  _variogram s2 = _variogram s1 /\
  (_variogram self0 = None -> _variogram s2 = Some (VAR_fit X1 y1)) /\
  self_X s2 = Some X2 /\ self_y s2 = Some y2 /\ n_features s2 = ncols X2.
Proof.
  unfold Kriging.fit. intros H1 H2.
  destruct (negb (length (rows X1) =? length y1)%nat); [discriminate|].
  injection H1 as <-. simpl in H2.
  destruct (negb (length (rows X2) =? length y2)%nat); [discriminate|].
  injection H2 as <-. simpl. repeat split. intros ->. reflexivity.
Qed.


(** X19: [update_fit] assigns before it checks.  Given new locations whose
    number differs from the number of stored values, it raises and
    leaves the new locations in place of the old, beside the old values
    and the old number of features. *)
Theorem update_fit_half_done (self : kriging_ordinary) (X' : array2) (y : list R) :
  self_y self = Some y -> length (rows X') <> length y ->
  let r := update_fit self (Some X') None in
  snd r = Some ShapeMismatch /\
  self_X (fst r) = Some X' /\ self_y (fst r) = Some y /\
  n_features (fst r) = n_features self /\ ~ consistent (fst r).
Proof.
  intros Hy Hne. unfold Kriging.update_fit, Kriging.fit. simpl. rewrite Hy.
  destruct (Nat.eqb_spec (length (rows X')) (length y)) as [E|_]; [contradiction|].
  simpl. repeat split; try assumption.
  intros [X0 [y0 [HX0 [Hy0 [Hlen _]]]]]. simpl in HX0, Hy0.
  injection HX0 as <-. injection Hy0 as <-. contradiction.
Qed.

(** What a [fit] that returns leaves. *)
Lemma fit_consistent (self s : kriging_ordinary) (X : array2) (y : list R) :
  fit self X y = inr s ->
  consistent s /\ self_X s = Some X /\ self_y s = Some y /\
  forall v, _variogram self = Some v -> _variogram s = Some v.
Proof.
  unfold Kriging.fit.
  destruct (Nat.eqb_spec (length (rows X)) (length y)) as [E|]; [|discriminate].
  simpl. intros H. injection H as <-. split; [|split; [|split]].
  - exists X, y. simpl. repeat split; auto. eexists; reflexivity.
  - reflexivity.
  - reflexivity.
  - intros v Hv. simpl. rewrite Hv. reflexivity.
Qed.

(** X20: an [update_fit] that returns leaves locations and values of one
    length, the number of features of the locations, and a variogram:
    the one there was, if there was one. *)
Theorem update_fit_success (self s : kriging_ordinary) (X : option array2)
    (y : option (list R)) :
  update_fit self X y = (s, None) ->
  consistent s /\
  (forall v, _variogram self = Some v -> _variogram s = Some v) /\
  (forall X', X = Some X' -> self_X s = Some X') /\
  (forall y', y = Some y' -> self_y s = Some y').
Proof.
  unfold Kriging.update_fit. intros H.
  destruct X as [X'|], y as [y'|]; cbn [self_X self_y] in H.
  - destruct (Kriging.fit _ _ _ _) as [e|s3] eqn:Hf; [discriminate|].
    injection H as <-. apply fit_consistent in Hf.
    destruct Hf as [Hc [HX [Hy Hv]]]. repeat split; try assumption; congruence.
  - destruct (self_y self) as [y2|] eqn:Hy2; [|discriminate].
    destruct (Kriging.fit _ _ _ _) as [e|s3] eqn:Hf; [discriminate|].
    injection H as <-. apply fit_consistent in Hf.
    destruct Hf as [Hc [HX [Hy Hv]]]. repeat split; try assumption; congruence.
  - destruct (self_X self) as [X2|] eqn:HX2; [|discriminate].
    destruct (Kriging.fit _ _ _ _) as [e|s3] eqn:Hf; [discriminate|].
    injection H as <-. apply fit_consistent in Hf.
    destruct Hf as [Hc [HX [Hy Hv]]]. repeat split; try assumption; congruence.
  - destruct (self_X self) as [X2|] eqn:HX2; [|discriminate].
    destruct (self_y self) as [y2|] eqn:Hy2; [|discriminate].
    destruct (Kriging.fit _ _ _ _) as [e|s3] eqn:Hf; [discriminate|].
    injection H as <-. apply fit_consistent in Hf.
    destruct Hf as [Hc [HX [Hy Hv]]]. repeat split; try assumption; congruence.
Qed.




End Collaborators.

Section Names.

Variable lower : string -> string.
Variable tie : KDTree.tie_order.
Variable get_neighors_brutal :
  metric -> ndarray -> array2 -> Z -> exn + (list (list ereal) * list (list nat)).

(** X22: [update_algorithm] stores a name only if its lower-case form is
    listed, and stores it as written, while [predict] looks for the
    exact name ['kdtree']: after any other spelling that was accepted the
    neighbours come from [get_neighors_brutal]. *)
Theorem update_algorithm_exact_name (self s : kriging_ordinary) (algorithm : string) :
  update_algorithm lower self algorithm = Some s ->
  algorithm <> "kdtree"%string ->
  In (lower algorithm) algorithms /\
  forall x data n_neighbor, self_X s = Some data ->
    Kriging.find_neighbors tie get_neighors_brutal s x n_neighbor =
    get_neighors_brutal (distance_type s) x data n_neighbor.
Proof.
  unfold update_algorithm. intros H Hne.
  destruct (existsb (String.eqb (lower algorithm)) algorithms) eqn:E; [|discriminate].
  injection H as <-. split.
  - apply existsb_exists in E. destruct E as [nm [Hin Heq]].
    apply String.eqb_eq in Heq. rewrite Heq. exact Hin.
  - intros x data n_neighbor HX. unfold Kriging.find_neighbors.
    simpl in HX. cbn [self_X _algorithm distance_type]. rewrite HX.
    destruct (String.eqb_spec algorithm "kdtree"); [contradiction|reflexivity].
Qed.

End Names.

End KrigingMore.

(** ** The scenarios, continued *)

Module ScenarioMore.
Import Kriging Scenario ScenarioFacts.

Lemma exponential_rises_witness :
  exists v1 v2, Distribution.exponential [2; 3; 1] 0 = Some v1 /\
                Distribution.exponential [2; 3; 1] 1 = Some v2 /\
                1 <= v1 /\ v1 <= v2 /\ v2 <= 2 + 1.
Proof.
  apply (DistributionMore.exponential_rises 2 3 1 ltac:(lra) ltac:(lra) 0 1 ltac:(lra)).
Defined.

Lemma gaussian_rises_witness :
  exists v1 v2, Distribution.gaussian [2; 3; 1] 0 = Some v1 /\
                Distribution.gaussian [2; 3; 1] 1 = Some v2 /\
                1 <= v1 /\ v1 <= v2 /\ v2 <= 2 + 1.
Proof.
  apply (DistributionMore.gaussian_rises 2 3 1 ltac:(lra) ltac:(lra) 0 1 ltac:(lra)).
Defined.

Lemma spherical_sill_witness :
  Distribution.spherical [2; 3; 1 / 2] (Distribution.Float64 5) =
    Some (Distribution.Float64 (2 + 1 / 2)) /\
  Distribution.spherical [2; 3; 1 / 2] (Distribution.Int64 5) =
    Some (Distribution.Int64 (Distribution.trunc (2 + 1 / 2))).
Proof.
  split.
  - apply (DistributionMore.spherical_sill 2 3 (1 / 2) (Distribution.Float64 5));
      simpl; lra.
  - apply (DistributionMore.spherical_sill 2 3 (1 / 2) (Distribution.Int64 5));
      simpl; lra.
Defined.

Lemma spherical_rises_witness :
  (exists v1 v2,
     Distribution.at_floats (Distribution.spherical [2; 3; 1]) 1 = Some v1 /\
     Distribution.at_floats (Distribution.spherical [2; 3; 1]) 4 = Some v2 /\
     1 <= v1 /\ v1 <= v2 /\ v2 <= 2 + 1) /\
  (exists v1 v2,
     Distribution.spherical [2; 3; 1] (Distribution.Int64 1) =
       Some (Distribution.Int64 v1) /\
     Distribution.spherical [2; 3; 1] (Distribution.Int64 4) =
       Some (Distribution.Int64 v2) /\
     (Distribution.trunc 1 <= v1)%Z /\ (v1 <= v2)%Z /\
     (v2 <= Distribution.trunc (2 + 1))%Z).
Proof.
  destruct (DistributionMore.spherical_rises 2 3 1 ltac:(lra) ltac:(lra)) as [Hf Hi].
  split.
  - apply (Hf 1 4). lra.
  - apply (Hi 1%Z 4%Z). lia.
Defined.

Lemma hole_effect_overshoots_witness :
  exists v, Distribution.hole_effect [2; 3; 1] 2 = Some v /\ 2 + 1 <= v /\
            (2 = 3 / 3 -> v = 2 + 1) /\ (3 / 3 < 2 -> 2 + 1 < v).
Proof. apply (DistributionMore.hole_effect_overshoots 2 3 1 2); lra. Defined.

Lemma circular_jump_witness :
  (exists v, Distribution.circular [2; 3; 1 / 2] (Distribution.Float64 3) =
               Some (Distribution.Float64 v) /\ v < 2 + 1 / 2) /\
  Distribution.circular [2; 3; 1 / 2] (Distribution.Float64 5) =
    Some (Distribution.Float64 (2 + 1 / 2)) /\
  Distribution.circular [2; 3; 1 / 2] (Distribution.Int64 5) =
    Some (Distribution.Int64 (Distribution.trunc (2 + 1 / 2))).
Proof.
  destruct (DistributionMore.circular_jump 2 3 (1 / 2) ltac:(lra) ltac:(lra)) as [H1 H2].
  split; [|split].
  - apply (H1 (Distribution.Float64 3)). reflexivity.
  - apply (H2 (Distribution.Float64 5)). simpl. lra.
  - apply (H2 (Distribution.Int64 5)). simpl. lra.
Defined.

(** The system of the line at 0 and at 1. *)
Lemma matrix_symmetric_witness :
  nth 1 (nth 0 (fst (kriging_system (linear_variogram 1 0) false Euclidean 2
                       [[0]; [1]] [0; 1])) []) 0 =
  nth 0 (nth 1 (fst (kriging_system (linear_variogram 1 0) false Euclidean 2
                       [[0]; [1]] [0; 1])) []) 0.
Proof.
  apply (KrigingMore.matrix_symmetric (linear_variogram 1 0) false Euclidean
           [[0]; [1]] [0; 1] 0 1); simpl; lia.
Defined.

Lemma linear_variogram_0 : linear_variogram 1 0 0 = 0.
Proof. unfold linear_variogram. lra. Qed.

Lemma useNugget_without_nugget_witness :
  predict data_order no_brutal (update_useNugget fitted true) (query1 0) 2 PosInf true =
  predict data_order no_brutal fitted (query1 0) 2 PosInf true.
Proof.
  apply (KrigingMore.useNugget_without_nugget data_order no_brutal fitted true (linear_variogram 1 0));
    [reflexivity|exact linear_variogram_0].
Defined.

Lemma one_entry_per_point_witness :
  exists x', validate (n_features fitted) (query1 0) 2 PosInf = inr x' /\
             length [1] = length (points x') /\ length [0] = length (points x').
Proof.
  apply (KrigingMore.one_entry_per_point data_order no_brutal fitted (query1 0) 2 PosInf [1] [0]).
  exact predict_arrays_line_0.
Defined.

(** The query [0], twice in one batch. *)
Lemma predict_arrays_line_0_0 :
  predict_arrays data_order no_brutal fitted (Arr2 {| ncols := 1; rows := [[0]; [0]] |}) 2 PosInf =
  inr (inr ([1; 1], [0; 0])).
Proof.
  unfold predict_arrays, validate, check_features, find_neighbors, KDTree.query.
  cbn [n_features fitted ncols rows Nat.eqb negb Z.leb Z.compare ereal_nonpos
       self_X _algorithm distance_type line_X map len length seq repeat].
  change (Z.to_nat 2) with 2%nat.
  change [[0]; [1]; [2]; [3]] with (rows line_X).
  rewrite query_line_0. cbn [fst snd combine loop].
  rewrite krige_line_0. reflexivity.
Qed.

Lemma batch_pointwise_witness :
  predict_arrays data_order no_brutal fitted (Arr2 {| ncols := 1; rows := [[0]] |}) 2 PosInf =
  inr (inr ([nth 1 [1; 1] 0], [nth 1 [0; 0] 0])).
Proof.
  apply (KrigingMore.batch_pointwise data_order no_brutal fitted line_X
           {| ncols := 1; rows := [[0]; [0]] |} 2 PosInf [1; 1] [0; 0] 1 [0]);
    [reflexivity|reflexivity|exact predict_arrays_line_0_0|reflexivity].
Defined.


(** The query [0] on the line, with a radius that keeps the hit alone. *)
Lemma kept_line_0_near :
  kept_idx (Finite (1 / 100)) [Finite 0; Finite 1] [0%nat; 1%nat] = [0%nat].
Proof.
  unfold kept_idx, within, mask. cbn [map ereal_ltb].
  repeat (decide_one; cbn [combine filter fst snd map]). reflexivity.
Qed.

Lemma krige_line_0_near :
  krige_point fitted (Finite (1 / 100)) [Finite 0; Finite 1] [0%nat; 1%nat] = Fill 1 0.
Proof.
  unfold krige_point, point_weights. outer.
  repeat (decide_one; outer).
  numbers. outer. same by_field.
Qed.

Lemma constant_field_witness :
  krige_point fitted (Finite (1 / 100)) [Finite 0; Finite 1] [0%nat; 1%nat] = Fill 1 0 /\
  1 = nth 0 line_y 0.
Proof.
  split; [exact krige_line_0_near|].
  apply (KrigingMore.constant_field fitted (Finite (1 / 100)) [Finite 0; Finite 1]
           [0%nat; 1%nat] line_y (nth 0 line_y 0) 1 0).
  - reflexivity.
  - rewrite kept_line_0_near. intros i [<-|[]]. reflexivity.
  - exact krige_line_0_near.
Defined.

Lemma affine_values_witness :
  krige_point {| n_features := 1;
                 _variogram := Some (linear_variogram 1 0);
                 _useNugget := false;
                 _algorithm := Kdtree;
                 distance_type := Euclidean;
                 self_X := Some line_X;
                 self_y := Some (map (fun v => 2 * v + 1) line_y) |}
              PosInf [Finite 0; Finite 1] [0%nat; 1%nat] = Fill (2 * 1 + 1) 0.
Proof.
  apply (KrigingMore.affine_values fitted _ 2 1 line_y); try reflexivity.
  exact krige_line_0.
Defined.

Lemma single_neighbour_witness :
  exists e, krige_point fitted (Finite (1 / 100)) [Finite 0; Finite 1] [0%nat; 1%nat] =
            Fill 1 e.
Proof.
  apply (KrigingMore.single_neighbour fitted (Finite (1 / 100)) [Finite 0; Finite 1]
           [0%nat; 1%nat] line_X (linear_variogram 1 0) line_y 0 1);
    try reflexivity; [exact kept_line_0_near|simpl; lia].
Defined.

Lemma refit_keeps_variogram_witness :
  _variogram lone = _variogram fitted /\
  (_variogram unfitted = None -> _variogram lone = Some (no_VAR_fit line_X line_y)) /\
  self_X lone = Some lone_X /\ self_y lone = Some lone_y /\
  n_features lone = ncols lone_X.
Proof.
  apply (KrigingMore.refit_keeps_variogram no_VAR_fit unfitted fitted lone
           line_X lone_X line_y lone_y); reflexivity.
Defined.



Lemma update_fit_half_done_witness :
  snd (update_fit no_VAR_fit fitted (Some lone_X) None) = Some ShapeMismatch /\
  self_X (fst (update_fit no_VAR_fit fitted (Some lone_X) None)) = Some lone_X /\
  self_y (fst (update_fit no_VAR_fit fitted (Some lone_X) None)) = Some line_y /\
  n_features (fst (update_fit no_VAR_fit fitted (Some lone_X) None)) = n_features fitted /\
  ~ consistent (fst (update_fit no_VAR_fit fitted (Some lone_X) None)).
Proof.
  apply (KrigingMore.update_fit_half_done no_VAR_fit fitted lone_X line_y);
    [reflexivity|simpl; lia].
Defined.

Lemma update_fit_success_witness :
  consistent fitted /\
  (forall v, _variogram unfitted = Some v -> _variogram fitted = Some v) /\
  (forall X', Some line_X = Some X' -> self_X fitted = Some X') /\
  (forall y', Some line_y = Some y' -> self_y fitted = Some y').
Proof.
  apply (KrigingMore.update_fit_success no_VAR_fit unfitted fitted (Some line_X)
           (Some line_y)).
  reflexivity.
Defined.


(** The name ['KDTree'] is accepted and selects the brutal search. *)
Lemma update_algorithm_exact_name_witness :
  In (ascii_lower "KDTree") algorithms /\
  forall x data n_neighbor,
    self_X {| n_features := 1;
              _variogram := Some (linear_variogram 1 0);
              _useNugget := false;
              _algorithm := Brutal;
              distance_type := Euclidean;
              self_X := Some line_X;
              self_y := Some line_y |} = Some data ->
    find_neighbors data_order no_brutal
      {| n_features := 1;
         _variogram := Some (linear_variogram 1 0);
         _useNugget := false;
         _algorithm := Brutal;
         distance_type := Euclidean;
         self_X := Some line_X;
         self_y := Some line_y |} x n_neighbor =
    no_brutal Euclidean x data n_neighbor.
Proof.
  apply (KrigingMore.update_algorithm_exact_name ascii_lower data_order no_brutal fitted _
           "KDTree"); [reflexivity|discriminate].
Defined.


End ScenarioMore.
